(** * The pane scrambler: alias seed generator (scrambler.py)

    A shallow embedding of [scrambler.py] and the properties of its seed
    generator.  The program draws adjective-noun pairs from two built-in word
    pools with [random.SystemRandom], collects them in a [set] until enough
    distinct ones are there, orders the set by keys from [random.random] and
    prints (and optionally exports) the result.

    Python's effects are threaded through a small state-and-error monad over
    the process state [Proc]; what the run-time decides (the bytes of the OS
    entropy source, the floats of the module-global generator, the iteration
    order of a [set], the per-process string hash, the working directory) is
    read from a [Host].  The [while] loop carries fuel: an outcome [Running]
    means the loop had not left when the fuel was spent. *)

From Stdlib Require Import List String Ascii ZArith NArith Lia Bool.
From Stdlib Require Import Permutation Sorted.
From Stdlib Require Import DecimalString HexadecimalString.
Import ListNotations.
Open Scope list_scope.
Open Scope string_scope.

(** ** The word pools *)

Definition ADJECTIVES : list string := [
  "amber"; "arctic"; "aspen"; "birch"; "blaze"; "bolt"; "cedar"; "chalk";
  "cinder"; "cobalt"; "copper"; "coral"; "crimson"; "dawn"; "delta"; "dusk";
  "echo"; "ember"; "fern"; "flint"; "forge"; "frost"; "glint"; "grove";
  "hazel"; "heather"; "hollow"; "indigo"; "inlet"; "ivory"; "jade";
  "jasper"; "kestrel"; "larch"; "laurel"; "linen"; "lunar"; "maple";
  "marsh"; "mist"; "navy"; "nimbus"; "ochre"; "opal"; "orbit"; "otter";
  "petal"; "pine"; "prism"; "quartz"; "raven"; "ridge"; "river"; "rowan";
  "runic"; "sable"; "sage"; "salt"; "sand"; "scout"; "shale"; "slate";
  "smoke"; "solar"; "sparrow"; "spruce"; "starling"; "storm"; "summit";
  "swift"; "tallow"; "teal"; "thistle"; "timber"; "trace"; "tundra"; "vale";
  "vault"; "veldt"; "wick"; "willow"; "wren"; "zephyr"; "zenith"
]%list.

Definition NOUNS : list string := [
  "anvil"; "arch"; "basin"; "beacon"; "bridge"; "brook"; "cable"; "cairn";
  "canal"; "canopy"; "cast"; "chord"; "circuit"; "cistern"; "cleft";
  "crest"; "current"; "depth"; "dial"; "drift"; "dune"; "echo"; "edge";
  "ember"; "falls"; "field"; "flare"; "frame"; "gate"; "glade"; "gorge";
  "grid"; "gully"; "haven"; "hearth"; "helm"; "hollow"; "kelp"; "knot";
  "latch"; "ledge"; "lens"; "lever"; "light"; "line"; "link"; "loch";
  "lock"; "loop"; "lore"; "mark"; "mast"; "meld"; "mesh"; "mill"; "moor";
  "node"; "notch"; "orbit"; "pass"; "patch"; "peak"; "pier"; "pillar";
  "pitch"; "plain"; "plank"; "pool"; "port"; "post"; "press"; "range";
  "rapid"; "reach"; "reef"; "relay"; "ridge"; "rift"; "rivet"; "root";
  "route"; "rune"; "seal"; "shaft"; "shore"; "sill"; "sluice"; "span";
  "spoke"; "stack"; "stake"; "stave"; "stern"; "strand"; "strut"; "surge";
  "sweep"; "tide"; "tine"; "torch"; "track"; "trail"; "vault"; "vein";
  "weir"; "well"; "wharf"
]%list.

(** ** Outcomes and the process monad *)

(** Python exceptions the modelled code can meet: [random.choice] on an empty
    sequence raises [IndexError]. *)
Inductive exn : Type :=
| IndexError (msg : string).

(** What a call has done when we stop looking: returned a value, raised, or
    is still inside the [while] loop with its fuel spent. *)
Inductive outcome (A : Type) : Type :=
| Returned (a : A)
| Raised (e : exn)
| Running.

Arguments Returned {A} a.
Arguments Raised {A} e.
Arguments Running {A}.

(** The process state.  The two pools are module-level globals bound to
    (mutable) list objects; the counters tell how many answers of each random
    source have been consumed; [stdout] has one entry per [print] call (its
    argument, without the newline [print] adds); [files] maps a file name in
    the working directory to its text. *)
Record Proc : Type := mkProc {
  adjectives : list string;
  nouns : list string;
  urandom_reads : nat;
  mt_calls : nat;
  stdout : list string;
  files : list (string * string)
}.

(** What the run-time supplies.  [os_urandom n] is the raw number behind the
    [n]-th selection of a [SystemRandom] (reduced into range by [choice]);
    [mt_random n] is the [n]-th float of [random.random()], a multiple of
    [2^-53] below [1], given by its numerator; [set_iter] lists a set, given
    in insertion order, in the order its hash table iterates; [str_hash] is
    the per-process [hash] of a string; [cwd] the working directory. *)
Record Host : Type := mkHost {
  os_urandom : nat -> nat;
  mt_random : nat -> N;
  set_iter : list string -> list string;
  set_iter_perm : forall l, Permutation (set_iter l) l;
  str_hash : string -> Z;
  cwd : string
}.

Definition M (A : Type) : Type := Proc -> outcome (A * Proc).

Definition ret {A} (a : A) : M A := fun p => Returned (a, p).

Definition bind {A B} (m : M A) (k : A -> M B) : M B :=
  fun p =>
    match m p with
    | Returned (a, p') => k a p'
    | Raised e => Raised e
    | Running => Running
    end.

Definition spin {A} : M A := fun _ => Running.

Notation "x <- m ;; k" := (bind m (fun x => k))
  (at level 61, m at next level, right associativity).
Notation "m ;;; k" := (bind m (fun _ => k))
  (at level 61, right associativity).

(** Reading a module global. *)
Definition load_global {A} (f : Proc -> A) : M A := fun p => Returned (f p, p).

(** ** The random sources *)

(** A [random.SystemRandom] instance keeps no state of its own: every
    selection reads the OS entropy source. *)
Inductive Rng : Type :=
| SystemRandom.

(** [rng.choice(seq)]: a member of [seq] picked by the next answer of the OS
    source; [IndexError] on an empty sequence. *)
Definition choice (h : Host) (rng : Rng) (seq : list string) : M string :=
  fun p =>
    match seq with
    | [] => Raised (IndexError "Cannot choose from an empty sequence")
    | x :: _ =>
        Returned (nth (os_urandom h (urandom_reads p) mod List.length seq) seq x,
                  mkProc (adjectives p) (nouns p) (S (urandom_reads p))
                         (mt_calls p) (stdout p) (files p))
    end%list.

(** [random.random()]: the next float of the module-global generator. *)
Definition random_random (h : Host) : M N :=
  fun p =>
    Returned (mt_random h (mt_calls p),
              mkProc (adjectives p) (nouns p) (urandom_reads p)
                     (S (mt_calls p)) (stdout p) (files p)).

(** ** generate_seed *)

Definition generate_seed (h : Host) (rng : option Rng) : M string :=
  rng <- match rng with
         | None => ret SystemRandom
         | Some r => ret r
         end ;;
  pool <- load_global adjectives ;;
  adj <- choice h rng pool ;;
  pool <- load_global nouns ;;
  noun <- choice h rng pool ;;
  ret (adj ++ "-" ++ noun).

(** ** Sets, [sorted] with a key, slices *)

Definition set_mem (s : string) (seeds : list string) : bool :=
  existsb (String.eqb s) seeds.

(** [seeds.add(s)] on a set kept as the list of its members in insertion
    order. *)
Definition set_add (s : string) (seeds : list string) : list string :=
  if set_mem s seeds then seeds else (seeds ++ [s])%list.

(** [sorted] calls the key function once per element, in iteration order. *)
Fixpoint decorate (h : Host) (xs : list string) : M (list (N * string)) :=
  match xs with
  | [] => ret []
  | x :: rest =>
      k <- random_random h ;;
      ks <- decorate h rest ;;
      ret ((k, x) :: ks)
  end%list.

(** [sorted] is stable: among equal keys the earlier element stays first. *)
Fixpoint insert_by_key {A} (kx : N * A) (l : list (N * A)) : list (N * A) :=
  match l with
  | [] => [kx]
  | ky :: rest =>
      if (fst kx <=? fst ky)%N then kx :: ky :: rest
      else ky :: insert_by_key kx rest
  end%list.

Fixpoint sort_by_key {A} (l : list (N * A)) : list (N * A) :=
  match l with
  | [] => []
  | kx :: rest => insert_by_key kx (sort_by_key rest)
  end%list.

(** [sorted(seeds, key=lambda x: random.random())] *)
Definition sorted_random_key (h : Host) (seeds : list string) : M (list string) :=
  keyed <- decorate h (set_iter h seeds) ;;
  ret (map snd (sort_by_key keyed)).

(** [l[:count]] *)
Definition slice_to {A} (count : Z) (l : list A) : list A :=
  if (0 <=? count)%Z then firstn (Z.to_nat count) l
  else firstn (Z.to_nat (Z.of_nat (List.length l) + count)) l.

(** ** generate_seeds *)

(** [while len(seeds) < count: seeds.add(generate_seed(rng))] *)
Fixpoint while_fewer (fuel : nat) (h : Host) (rng : Rng) (count : Z)
    (seeds : list string) : M (list string) :=
  if (Z.of_nat (List.length seeds) <? count)%Z then
    match fuel with
    | O => spin
    | S fuel' =>
        s <- generate_seed h (Some rng) ;;
        while_fewer fuel' h rng count (set_add s seeds)
    end
  else ret seeds.

(** [return sorted(seeds, key=lambda x: random.random())[:count]] *)
Definition order_and_truncate (h : Host) (count : Z) (seeds : list string)
    : M (list string) :=
  ordered <- sorted_random_key h seeds ;;
  ret (slice_to count ordered).

Definition generate_seeds (fuel : nat) (h : Host) (count : Z) : M (list string) :=
  let rng := SystemRandom in
  seeds <- while_fewer fuel h rng count [] ;;
  order_and_truncate h count seeds.

(** ** Console, files and formatting *)

Definition nl : string := String (ascii_of_nat 10) "".

(** [print(text)] *)
Definition print (text : string) : M unit :=
  fun p =>
    Returned (tt, mkProc (adjectives p) (nouns p) (urandom_reads p) (mt_calls p)
                         (stdout p ++ [text])%list (files p)).

(** [Path(name).write_text(text)]: the file is created or replaced. *)
Definition write_text (name text : string) : M unit :=
  fun p =>
    Returned (tt, mkProc (adjectives p) (nouns p) (urandom_reads p) (mt_calls p)
                         (stdout p)
                         ((name, text)
                            :: filter (fun f => negb (String.eqb (fst f) name)) (files p))%list).

Definition read_text (name : string) (p : Proc) : option string :=
  option_map snd (find (fun f => String.eqb (fst f) name) (files p)).

(** [Path(name).resolve()] *)
Definition resolve (h : Host) (name : string) : string :=
  cwd h ++ "/" ++ name.

Fixpoint repeat_str (s : string) (n : nat) : string :=
  match n with
  | O => ""
  | S n' => s ++ repeat_str s n'
  end.

(** [f"{s:<width}"] *)
Definition ljust (width : nat) (s : string) : string :=
  s ++ repeat_str " " (width - String.length s).

(** [format(n, 'x')] for a non-negative [n] *)
Definition format_x (n : Z) : string :=
  HexadecimalString.NilZero.string_of_uint (N.to_hex_uint (Z.to_N n)).

(** [f"{n}"] for a length *)
Definition format_d (n : nat) : string :=
  DecimalString.NilZero.string_of_uint (Nat.to_uint n).

(** One row of the table, the body of [for s in seeds]. *)
Definition table_row (h : Host) (s : string) : string :=
  let short_hash := format_x (Z.abs (str_hash h s) mod 4095) in
  let alias_ex := s ++ "-" ++ short_hash ++ "@alias.yourdomain.com" in
  let cmd := "pane enroll <url> --context " ++ s in
  "  " ++ ljust 28 s ++ " " ++ ljust 48 alias_ex ++ " " ++ cmd.

Fixpoint for_each {A} (xs : list A) (body : A -> M unit) : M unit :=
  match xs with
  | [] => ret tt
  | x :: rest => body x ;;; for_each rest body
  end%list.

(** ** main *)

(** [main()] after [argparse] has read [--count] and [--export]. *)
Definition main (fuel : nat) (h : Host) (count : Z) (export : bool) : M unit :=
  seeds <- generate_seeds fuel h count ;;
  print (nl ++ "  pane scrambler — alias seeds" ++ nl) ;;;
  print ("  Use one seed per service. Never reuse." ++ nl) ;;;
  print ("  " ++ ljust 28 "SEED" ++ " " ++ ljust 48 "ALIAS EMAIL EXAMPLE"
         ++ " " ++ "COMMAND") ;;;
  print ("  " ++ repeat_str "─" 28 ++ " " ++ repeat_str "─" 48 ++ " "
         ++ repeat_str "─" 28) ;;;
  for_each seeds (fun s => print (table_row h s)) ;;;
  print (nl ++ "  " ++ format_d (List.length seeds)
         ++ " seeds generated using SystemRandom (OS entropy)" ++ nl) ;;;
  if export then
    let out := "alias-seeds.txt" in
    write_text out (String.concat nl seeds ++ nl) ;;;
    print ("  Written to " ++ resolve h out ++ nl) ;;;
    print ("  ⚠  Keep this file private. Delete it when done. Never commit it." ++ nl)
  else ret tt.

(** The process right after the module is imported. *)
Definition module_loaded : Proc := mkProc ADJECTIVES NOUNS 0 0 [] [].

(** A process whose two globals are still bound to the module's pools. *)
Definition pools_bound (p : Proc) : Prop :=
  adjectives p = ADJECTIVES /\ nouns p = NOUNS.

(** ** Reading seeds, files and the console back *)

Definition dash : ascii := "-"%char.
Definition space : ascii := " "%char.
Definition newline : ascii := ascii_of_nat 10.

(** [s.count(c)] *)
Fixpoint count_char (c : ascii) (s : string) : nat :=
  match s with
  | EmptyString => 0
  | String a rest => (if Ascii.eqb a c then 1 else 0) + count_char c rest
  end.

(** [s.split(c)] *)
Fixpoint split_on (c : ascii) (s : string) : list string :=
  match s with
  | EmptyString => [""]
  | String a rest =>
      if Ascii.eqb a c then "" :: split_on c rest
      else match split_on c rest with
           | [] => [String a ""]
           | w :: ws => String a w :: ws
           end
  end%list.

(** The seed pattern [<adjective>-<noun>] over the module's pools. *)
Definition is_seed (s : string) : bool :=
  match split_on dash s with
  | [adj; noun] => set_mem adj ADJECTIVES && set_mem noun NOUNS
  | _ => false
  end%list.

Definition seed_form (s : string) : Prop :=
  exists adj noun,
    In adj ADJECTIVES /\ In noun NOUNS /\ s = adj ++ "-" ++ noun.

(** Every seed the pools can form, adjective by adjective. *)
Definition seed_space : list string :=
  flat_map (fun adj => map (fun noun => adj ++ "-" ++ noun) NOUNS) ADJECTIVES.

(** The lines of a text whose every line is newline-terminated. *)
Definition file_lines (text : string) : option (list string) :=
  match rev (split_on newline text) with
  | EmptyString :: body => Some (rev body)
  | _ => None
  end%list.

Fixpoint take_until (c : ascii) (s : string) : string :=
  match s with
  | EmptyString => ""
  | String a rest => if Ascii.eqb a c then "" else String a (take_until c rest)
  end.

(** The first column of a console entry indented by two blanks. *)
Definition first_column (entry : string) : option string :=
  match entry with
  | String a (String b rest) =>
      if Ascii.eqb a space && Ascii.eqb b space then Some (take_until space rest)
      else None
  | _ => None
  end.

(** The seed a console entry shows in its SEED column, if it is a table row. *)
Definition console_seed (entry : string) : option string :=
  match first_column entry with
  | Some field => if is_seed field then Some field else None
  | None => None
  end.

Fixpoint printed_seeds (entries : list string) : list string :=
  match entries with
  | [] => []
  | e :: rest =>
      match console_seed e with
      | Some s => s :: printed_seeds rest
      | None => printed_seeds rest
      end
  end%list.

(** What a run that took the process from [p] to [p'] printed. *)
Definition printed_since (p p' : Proc) : list string :=
  skipn (List.length (stdout p)) (stdout p').

(** ** Ways of telling how a call ends *)

Definition returns {A} (run : nat -> outcome A) (a : A) : Prop :=
  exists fuel, forall fuel', fuel <= fuel' -> run fuel' = Returned a.

Definition fails_with_error {A} (run : nat -> outcome A) : Prop :=
  exists fuel e, run fuel = Raised e.

Definition hangs {A} (run : nat -> outcome A) : Prop :=
  forall fuel, run fuel = Running.

(** The seed [generate_seed] forms when the entropy source stands at answer
    [q]. *)
Definition seed_at (h : Host) (q : nat) : string :=
  nth (os_urandom h q mod List.length ADJECTIVES) ADJECTIVES ""
  ++ "-" ++
  nth (os_urandom h (S q) mod List.length NOUNS) NOUNS "".

(** A source that, from answer [q] on, keeps producing every pair of the two
    pools again and again, as independent uniform draws do with probability
    one. *)
Definition fair_source (h : Host) (q : nat) : Prop :=
  forall k0 adj noun,
    In adj ADJECTIVES -> In noun NOUNS ->
    exists k, k0 <= k /\ seed_at h (q + 2 * k) = adj ++ "-" ++ noun.

(** The process after [k] more answers of the entropy source were read. *)
Definition after_reads (k : nat) (p : Proc) : Proc :=
  mkProc (adjectives p) (nouns p) (k + urandom_reads p) (mt_calls p)
         (stdout p) (files p).

(** The process after [k] more floats of the module-global generator. *)
Definition after_keys (k : nat) (p : Proc) : Proc :=
  mkProc (adjectives p) (nouns p) (urandom_reads p) (k + mt_calls p)
         (stdout p) (files p).

(** ** The ordering step as the specification words it

    Sort the set alphabetically, shuffle that list with keys from the
    separate source, truncate. *)

Fixpoint insert_alpha (x : string) (l : list string) : list string :=
  match l with
  | [] => [x]
  | y :: rest => if String.leb x y then x :: y :: rest else y :: insert_alpha x rest
  end%list.

Fixpoint sort_alpha (l : list string) : list string :=
  match l with
  | [] => []
  | x :: rest => insert_alpha x (sort_alpha rest)
  end%list.

Definition order_and_truncate_as_worded (h : Host) (count : Z)
    (seeds : list string) : M (list string) :=
  keyed <- decorate h (sort_alpha seeds) ;;
  ret (slice_to count (map snd (sort_by_key keyed))).

Definition generate_seeds_as_worded (fuel : nat) (h : Host) (count : Z)
    : M (list string) :=
  seeds <- while_fewer fuel h SystemRandom count [] ;;
  order_and_truncate_as_worded h count seeds.

(** ** Sequences of generator calls *)

Inductive generator_call : Type :=
| Call_generate_seed (rng : option Rng)
| Call_generate_seeds (fuel : nat) (count : Z)
| Call_main (fuel : nat) (count : Z) (export : bool).

Definition run_call (h : Host) (c : generator_call) : M unit :=
  match c with
  | Call_generate_seed rng => generate_seed h rng ;;; ret tt
  | Call_generate_seeds fuel count => generate_seeds fuel h count ;;; ret tt
  | Call_main fuel count export => main fuel h count export
  end.

Fixpoint run_calls (h : Host) (cs : list generator_call) : M unit :=
  match cs with
  | [] => ret tt
  | c :: rest => run_call h c ;;; run_calls h rest
  end%list.

(** ** Concrete hosts *)

(** An entropy source that walks through the pairs in order: the answers at
    [2k] and [2k+1] are the quotient and remainder of [k] by the noun count. *)
Definition enumerating (n : nat) : nat :=
  if Nat.even n then (n / 2) / List.length NOUNS
  else (n / 2) mod List.length NOUNS.

(** An entropy source that draws pair [5] of the enumeration first and walks
    downwards, so that seeds arrive in reverse alphabetical order. *)
Definition descending (n : nat) : nat :=
  if Nat.even n then 0 else 5 - n / 2.

(** A host whose sets iterate in insertion order and whose floats rise. *)
Definition plain_host (entropy : nat -> nat) : Host :=
  mkHost entropy N.of_nat id (fun l => Permutation_refl l)
         (fun s => Z.of_nat (String.length s)) "/home/pane".

(** ** Notions the statements use *)

(** Pairwise distinctness of a list of words, as a check. *)
Fixpoint distinctb (l : list string) : bool :=
  match l with
  | [] => true
  | x :: rest => negb (set_mem x rest) && distinctb rest
  end%list.

(** The word [w] has no character [c]. *)
Definition free_of (c : ascii) (w : string) : bool :=
  Nat.eqb (count_char c w) 0.

(** The loop invariant: the members are distinct seeds of the seed space. *)
Definition seed_set (seeds : list string) : Prop :=
  NoDup seeds /\ incl seeds seed_space.

(** The floats [sorted] asks for when the generator stands at float [q]. *)
Definition keys_from (h : Host) (q n : nat) : list N :=
  map (mt_random h) (seq q n).

(** The list the ordering step builds from the set [seeds]. *)
Definition keyed_order (h : Host) (q : nat) (seeds : list string) : list string :=
  map snd (sort_by_key
             (combine (keys_from h q (List.length (set_iter h seeds)))
                      (set_iter h seeds))).

(** Order of the keyed entries [sorted] compares. *)
Definition key_le {A} (a b : N * A) : Prop := (fst a <= fst b)%N.

(** A computation that hands the two globals on as it found them. *)
Definition keeps_pools {A} (m : M A) : Prop :=
  forall p a p',
    m p = Returned (a, p') ->
    adjectives p' = adjectives p /\ nouns p' = nouns p.

(** Two hosts whose entropy sources give the same answers. *)
Definition same_entropy (h1 h2 : Host) : Prop :=
  forall n, os_urandom h1 n = os_urandom h2 n.

(** The process [p] with its console and files replaced. *)
Definition with_output (p : Proc) (out : list string)
    (fs : list (string * string)) : Proc :=
  mkProc (adjectives p) (nouns p) (urandom_reads p) (mt_calls p) out fs.

(** The four entries [main] prints above the table. *)
Definition banner : list string :=
  [(nl ++ "  pane scrambler — alias seeds" ++ nl)%string;
   ("  Use one seed per service. Never reuse." ++ nl)%string;
   ("  " ++ ljust 28 "SEED" ++ " " ++ ljust 48 "ALIAS EMAIL EXAMPLE" ++ " "
    ++ "COMMAND")%string;
   ("  " ++ repeat_str "─" 28 ++ " " ++ repeat_str "─" 48 ++ " "
    ++ repeat_str "─" 28)%string]%list.

(** The entry [main] prints below the table. *)
Definition tally (n : nat) : string :=
  nl ++ "  " ++ format_d n ++ " seeds generated using SystemRandom (OS entropy)" ++ nl.

(** The two entries [main] prints after an export. *)
Definition export_notes (h : Host) : list string :=
  [("  Written to " ++ resolve h "alias-seeds.txt" ++ nl)%string;
   ("  ⚠  Keep this file private. Delete it when done. Never commit it." ++ nl)%string]%list.

(** A source that answers [i] to every adjective draw and [j] to every noun
    draw. *)
Definition fixed_pair (i j : nat) (n : nat) : nat :=
  if Nat.even n then i else j.

(** A few calls in a row, for trying the frame property. *)
Definition sample_calls : list generator_call :=
  [Call_generate_seed None; Call_generate_seeds 4 3;
   Call_generate_seed (Some SystemRandom); Call_main 4 2 true]%list.

(** ** Further notions *)

(** A computation that prints nothing and writes no file. *)
Definition keeps_output {A} (m : M A) : Prop :=
  forall p a p',
    m p = Returned (a, p') ->
    stdout p' = stdout p /\ files p' = files p.

(** The first [k] seeds drawn when the entropy source stands at answer [q]. *)
Definition drawn (h : Host) (q k : nat) : list string :=
  map (fun i => seed_at h (q + 2 * i)) (seq 0 k).

(** The set a sequence of draws builds up, starting from [seeds]. *)
Definition collect (draws : list string) (seeds : list string) : list string :=
  fold_left (fun set s => set_add s set) draws seeds.

(** The host [h] with other floats in its module-global generator. *)
Definition with_floats (h : Host) (floats : nat -> N) : Host :=
  mkHost (os_urandom h) floats (set_iter h) (set_iter_perm h) (str_hash h) (cwd h).

(** Where [x] stands in [l] (the length of [l] if it does not occur). *)
Fixpoint position_in (x : string) (l : list string) : nat :=
  match l with
  | [] => 0
  | y :: rest => if String.eqb x y then 0 else S (position_in x rest)
  end%list.

(** The character is a lower-case ASCII letter. *)
Definition is_lower (c : ascii) : bool :=
  ((97 <=? nat_of_ascii c) && (nat_of_ascii c <=? 122))%nat.

(** The character is a lower-case hexadecimal digit. *)
Definition is_hex (c : ascii) : bool :=
  (((48 <=? nat_of_ascii c) && (nat_of_ascii c <=? 57))
   || ((97 <=? nat_of_ascii c) && (nat_of_ascii c <=? 102)))%nat.

Fixpoint all_chars (f : ascii -> bool) (s : string) : bool :=
  match s with
  | EmptyString => true
  | String c rest => f c && all_chars f rest
  end.

(** What a seed looks like: 9 to 16 characters, lower-case letters and dashes. *)
Definition seed_shape (s : string) : bool :=
  ((9 <=? String.length s) && (String.length s <=? 16))%nat
  && all_chars (fun c => is_lower c || Ascii.eqb c dash) s.

(** What a short hash looks like: one to three hexadecimal digits. *)
Definition short_hash_shape (t : string) : bool :=
  ((1 <=? String.length t) && (String.length t <=? 3))%nat
  && all_chars is_hex t.

(** A working directory that already holds an export and another file. *)
Definition disk_before : list (string * string) :=
  [("notes.txt", "keep"); ("alias-seeds.txt", ("old-seed" ++ nl)%string)]%list.

(** * Properties *)

(** ** The model at work *)

Example generate_seed_first :
  generate_seed (plain_host enumerating) None module_loaded
  = Returned ("amber-anvil", after_reads 2 module_loaded).
Proof. reflexivity. Qed.

Example generate_seed_empty_pool :
  generate_seed (plain_host enumerating) None (mkProc []%list NOUNS 0 0 []%list []%list)
  = Raised (IndexError "Cannot choose from an empty sequence").
Proof. reflexivity. Qed.

Example generate_seeds_three :
  generate_seeds 3 (plain_host enumerating) 3 module_loaded
  = Returned (["amber-anvil"; "amber-arch"; "amber-basin"]%list,
              after_keys 3 (after_reads 6 module_loaded)).
Proof. vm_compute. reflexivity. Qed.

Example generate_seeds_short_of_fuel :
  generate_seeds 2 (plain_host enumerating) 3 module_loaded = Running.
Proof. vm_compute. reflexivity. Qed.

(** A source that repeats itself never gets the loop past one seed. *)
Example generate_seeds_stuck_source :
  generate_seeds 40 (plain_host (fixed_pair 0 0)) 2 module_loaded = Running.
Proof. vm_compute. reflexivity. Qed.

Example sort_by_key_stable :
  sort_by_key [(1%N, "b"); (0%N, "c"); (1%N, "a")]%list
  = [(0%N, "c"); (1%N, "b"); (1%N, "a")]%list.
Proof. reflexivity. Qed.

Example slice_to_negative :
  slice_to (-1) [1; 2; 3]%list = [1; 2]%list /\
  slice_to (-5) [1; 2; 3]%list = []%list /\
  slice_to 2 [1; 2; 3]%list = [1; 2]%list /\
  slice_to 7 [1; 2; 3]%list = [1; 2; 3]%list.
Proof. repeat split. Qed.

Example split_on_examples :
  split_on dash "maple-circuit" = ["maple"; "circuit"]%list /\
  split_on dash "" = [""]%list /\
  split_on dash "a--b" = ["a"; ""; "b"]%list.
Proof. repeat split. Qed.

Example table_row_example :
  table_row (plain_host enumerating) "amber-anvil"
  = "  amber-anvil                  amber-anvil-b@alias.yourdomain.com               pane enroll <url> --context amber-anvil".
Proof. vm_compute. reflexivity. Qed.

Example main_export_two :
  match main 2 (plain_host enumerating) 2 true module_loaded with
  | Returned (_, p') =>
      read_text "alias-seeds.txt" p' = Some ("amber-anvil" ++ nl ++ "amber-arch" ++ nl)
      /\ printed_seeds (stdout p') = ["amber-anvil"; "amber-arch"]%list
  | _ => False
  end.
Proof. vm_compute. split; reflexivity. Qed.

(** An export of an empty batch still writes one (empty) line. *)
Example main_export_none :
  match main 0 (plain_host enumerating) 0 true module_loaded with
  | Returned (_, p') => read_text "alias-seeds.txt" p' = Some nl
  | _ => False
  end.
Proof. vm_compute. reflexivity. Qed.

(** ** Facts about the two pools, by evaluation *)

Lemma set_mem_In s l : set_mem s l = true <-> In s l.
Proof.
  unfold set_mem. rewrite existsb_exists. split.
  - intros [x [Hx Heq]]. apply String.eqb_eq in Heq. now subst.
  - intro H. exists s. split; [assumption | apply String.eqb_refl].
Qed.

Lemma set_mem_not_In s l : set_mem s l = false <-> ~ In s l.
Proof.
  rewrite <- set_mem_In. destruct (set_mem s l); split; congruence.
Qed.

Lemma distinctb_NoDup l : distinctb l = true -> NoDup l.
Proof.
  induction l as [|x rest IH]; simpl; intro H.
  - constructor.
  - apply andb_true_iff in H. destruct H as [Hx Hrest].
    constructor.
    + apply set_mem_not_In. now destruct (set_mem x rest).
    + now apply IH.
Qed.

Lemma forallb_free_of c l :
  forallb (free_of c) l = true -> forall w, In w l -> count_char c w = 0.
Proof.
  intros H w Hw. rewrite forallb_forall in H.
  apply Nat.eqb_eq. now apply H.
Qed.

Lemma ADJECTIVES_length : List.length ADJECTIVES = 84.
Proof. reflexivity. Qed.

Lemma NOUNS_length : List.length NOUNS = 107.
Proof. reflexivity. Qed.

Lemma ADJECTIVES_NoDup : NoDup ADJECTIVES.
Proof. apply distinctb_NoDup. vm_compute. reflexivity. Qed.

Lemma NOUNS_NoDup : NoDup NOUNS.
Proof. apply distinctb_NoDup. vm_compute. reflexivity. Qed.

Lemma ADJECTIVES_no_dash w : In w ADJECTIVES -> count_char dash w = 0.
Proof. apply forallb_free_of. vm_compute. reflexivity. Qed.

Lemma NOUNS_no_dash w : In w NOUNS -> count_char dash w = 0.
Proof. apply forallb_free_of. vm_compute. reflexivity. Qed.

Lemma ADJECTIVES_no_newline w : In w ADJECTIVES -> count_char newline w = 0.
Proof. apply forallb_free_of. vm_compute. reflexivity. Qed.

Lemma NOUNS_no_newline w : In w NOUNS -> count_char newline w = 0.
Proof. apply forallb_free_of. vm_compute. reflexivity. Qed.

Lemma ADJECTIVES_no_space w : In w ADJECTIVES -> count_char space w = 0.
Proof. apply forallb_free_of. vm_compute. reflexivity. Qed.

Lemma NOUNS_no_space w : In w NOUNS -> count_char space w = 0.
Proof. apply forallb_free_of. vm_compute. reflexivity. Qed.

(** ** Strings: counting and splitting *)

Lemma count_char_app c a b :
  count_char c (a ++ b) = count_char c a + count_char c b.
Proof.
  induction a as [|x a IH]; simpl; [reflexivity|].
  rewrite IH. lia.
Qed.

Lemma count_char_cons_zero c x a :
  count_char c (String x a) = 0 -> Ascii.eqb x c = false /\ count_char c a = 0.
Proof.
  simpl. destruct (Ascii.eqb x c); [discriminate | auto].
Qed.

Lemma split_on_free c b : count_char c b = 0 -> split_on c b = [b]%list.
Proof.
  induction b as [|x b IH]; simpl; intro H; [reflexivity|].
  destruct (Ascii.eqb x c); [discriminate|].
  simpl in H. now rewrite IH.
Qed.

Lemma split_on_app c a b :
  count_char c a = 0 ->
  split_on c (a ++ String c b) = (a :: split_on c b)%list.
Proof.
  induction a as [|x a IH]; intro H.
  - simpl. now rewrite Ascii.eqb_refl.
  - apply count_char_cons_zero in H. destruct H as [Hx Ha].
    simpl. rewrite Hx, (IH Ha). reflexivity.
Qed.

Lemma take_until_app c a b :
  count_char c a = 0 -> take_until c (a ++ String c b) = a.
Proof.
  induction a as [|x a IH]; intro H.
  - simpl. now rewrite Ascii.eqb_refl.
  - apply count_char_cons_zero in H. destruct H as [Hx Ha].
    simpl. rewrite Hx, (IH Ha). reflexivity.
Qed.

Lemma append_assoc (a b c : string) : (a ++ b) ++ c = a ++ b ++ c.
Proof. induction a as [|x a IH]; simpl; [reflexivity | now rewrite IH]. Qed.

(** Joining the pieces of a split with the separator gives the string back. *)
Lemma concat_cons sep x y l :
  String.concat sep (x :: y :: l) = x ++ sep ++ String.concat sep (y :: l).
Proof. reflexivity. Qed.

Lemma concat_split c s : String.concat (String c "") (split_on c s) = s.
Proof.
  induction s as [|a rest IH]; [reflexivity|].
  cbn [split_on]. destruct (Ascii.eqb a c) eqn:Hac.
  - apply Ascii.eqb_eq in Hac. subst a.
    destruct (split_on c rest) as [|w ws] eqn:Hsplit.
    + simpl in IH. now subst rest.
    + rewrite concat_cons, IH. reflexivity.
  - destruct (split_on c rest) as [|w ws] eqn:Hsplit.
    + simpl in IH. now subst rest.
    + destruct ws as [|w' ws].
      * simpl in *. now subst.
      * rewrite concat_cons in *. rewrite <- IH. reflexivity.
Qed.

(** A joined pair splits back into its two words. *)
Lemma split_joined adj noun :
  count_char dash adj = 0 -> count_char dash noun = 0 ->
  split_on dash (adj ++ "-" ++ noun) = [adj; noun]%list.
Proof.
  intros Ha Hn. change ("-" ++ noun) with (String dash noun).
  rewrite (split_on_app _ _ _ Ha), (split_on_free _ _ Hn). reflexivity.
Qed.

Lemma count_joined c adj noun :
  count_char c (adj ++ "-" ++ noun)
  = count_char c adj + (if Ascii.eqb dash c then 1 else 0) + count_char c noun.
Proof.
  rewrite count_char_app. simpl. fold dash. lia.
Qed.

Lemma joined_injective a n a' n' :
  count_char dash a = 0 -> count_char dash n = 0 ->
  count_char dash a' = 0 -> count_char dash n' = 0 ->
  a ++ "-" ++ n = a' ++ "-" ++ n' -> a = a' /\ n = n'.
Proof.
  intros Ha Hn Ha' Hn' Heq.
  assert (H : [a; n]%list = [a'; n']%list).
  { rewrite <- (split_joined a n Ha Hn), <- (split_joined a' n' Ha' Hn').
    now rewrite Heq. }
  now inversion H.
Qed.

(** ** The seed space *)

Lemma seed_space_form s : In s seed_space <-> seed_form s.
Proof.
  unfold seed_space, seed_form. rewrite in_flat_map. split.
  - intros [adj [Ha Hs]]. apply in_map_iff in Hs.
    destruct Hs as [noun [Heq Hn]]. now exists adj, noun.
  - intros [adj [noun [Ha [Hn Heq]]]]. exists adj. split; [assumption|].
    apply in_map_iff. now exists noun.
Qed.

Lemma pairs_length (adjs nouns : list string) :
  List.length (flat_map (fun adj => map (fun noun => adj ++ "-" ++ noun) nouns) adjs)
  = List.length adjs * List.length nouns.
Proof.
  induction adjs as [|a adjs IH]; [reflexivity|].
  cbn [flat_map List.length Nat.mul].
  rewrite length_app, length_map. f_equal. exact IH.
Qed.

Lemma seed_space_length :
  List.length seed_space = List.length ADJECTIVES * List.length NOUNS.
Proof. apply pairs_length. Qed.

Lemma pairs_NoDup (adjs nouns : list string) :
  NoDup adjs -> NoDup nouns ->
  (forall w, In w adjs -> count_char dash w = 0) ->
  (forall w, In w nouns -> count_char dash w = 0) ->
  NoDup (flat_map (fun adj => map (fun noun => adj ++ "-" ++ noun) nouns) adjs).
Proof.
  intros Hadjs Hnouns Hfa Hfn.
  induction Hadjs as [|a adjs Hnotin Hnd IH]; simpl; [constructor|].
  apply NoDup_app.
  - apply Finite.Injective_map_NoDup_in; [|assumption].
    intros x y Hx Hy Heq.
    apply joined_injective in Heq; auto using in_eq. tauto.
  - apply IH. intros w Hw. apply Hfa. now right.
  - intros s Hs Hs'. apply in_map_iff in Hs. destruct Hs as [n [Heq Hn]].
    apply in_flat_map in Hs'. destruct Hs' as [a' [Ha' Hs']].
    apply in_map_iff in Hs'. destruct Hs' as [n' [Heq' Hn']].
    subst s. apply joined_injective in Heq'; auto using in_eq, in_cons.
    destruct Heq' as [-> _]. contradiction.
Qed.

Lemma seed_space_NoDup : NoDup seed_space.
Proof.
  apply pairs_NoDup;
    auto using ADJECTIVES_NoDup, NOUNS_NoDup, ADJECTIVES_no_dash, NOUNS_no_dash.
Qed.

Lemma is_seed_form s : is_seed s = true <-> seed_form s.
Proof.
  unfold is_seed, seed_form. split.
  - destruct (split_on dash s) as [|adj [|noun [|? ?]]] eqn:Hsplit;
      try discriminate.
    intro H. apply andb_true_iff in H. destruct H as [Ha Hn].
    apply set_mem_In in Ha. apply set_mem_In in Hn.
    exists adj, noun. repeat split; try assumption.
    rewrite <- (concat_split dash s), Hsplit. reflexivity.
  - intros [adj [noun [Ha [Hn ->]]]].
    rewrite split_joined by auto using ADJECTIVES_no_dash, NOUNS_no_dash.
    apply andb_true_iff. split; now apply set_mem_In.
Qed.

(** ** Running [generate_seed] *)

Lemma bind_returned {A B} (m : M A) (k : A -> M B) p a p' :
  m p = Returned (a, p') -> bind m k p = k a p'.
Proof. unfold bind. now intros ->. Qed.

Lemma bind_inv {A B} (m : M A) (k : A -> M B) p b p'' :
  bind m k p = Returned (b, p'') ->
  exists a p', m p = Returned (a, p') /\ k a p' = Returned (b, p'').
Proof.
  unfold bind. destruct (m p) as [[a p']| |]; try discriminate.
  intro H. now exists a, p'.
Qed.

Lemma choice_returns h rng (seq : list string) p :
  seq <> []%list ->
  choice h rng seq p
  = Returned (nth (os_urandom h (urandom_reads p) mod List.length seq) seq "",
              after_reads 1 p).
Proof.
  intro Hne. destruct seq as [|x rest]; [congruence|].
  unfold choice. f_equal. f_equal. apply nth_indep.
  apply Nat.mod_upper_bound. discriminate.
Qed.

Lemma ADJECTIVES_nonempty : ADJECTIVES <> []%list.
Proof. discriminate. Qed.

Lemma NOUNS_nonempty : NOUNS <> []%list.
Proof. discriminate. Qed.

Lemma after_reads_reads k p : urandom_reads (after_reads k p) = k + urandom_reads p.
Proof. reflexivity. Qed.

Lemma after_reads_add j k p :
  after_reads j (after_reads k p) = after_reads (j + k) p.
Proof. unfold after_reads. simpl. f_equal. lia. Qed.

Lemma after_reads_bound k p : pools_bound p -> pools_bound (after_reads k p).
Proof. now intros [Ha Hn]. Qed.

Lemma generate_seed_returns h rng p :
  pools_bound p ->
  generate_seed h rng p = Returned (seed_at h (urandom_reads p), after_reads 2 p).
Proof.
  intros [Ha Hn]. unfold generate_seed.
  assert (Hrng : forall (k : Rng -> M string),
             bind (match rng with None => ret SystemRandom | Some r => ret r end) k p
             = k SystemRandom p).
  { intro k. destruct rng as [[]|]; reflexivity. }
  rewrite Hrng. unfold load_global.
  cbv beta delta [bind] iota.
  rewrite Ha, (choice_returns _ _ _ _ ADJECTIVES_nonempty).
  cbv beta iota.
  change (nouns (after_reads 1 p)) with (nouns p). rewrite Hn.
  rewrite (choice_returns _ _ _ _ NOUNS_nonempty).
  cbv beta iota. unfold ret, seed_at.
  rewrite after_reads_add. reflexivity.
Qed.

Lemma seed_at_form h q : seed_form (seed_at h q).
Proof.
  exists (nth (os_urandom h q mod List.length ADJECTIVES) ADJECTIVES ""),
         (nth (os_urandom h (S q) mod List.length NOUNS) NOUNS "").
  repeat split; apply nth_In; apply Nat.mod_upper_bound.
  - rewrite ADJECTIVES_length. discriminate.
  - rewrite NOUNS_length. discriminate.
Qed.

Lemma seed_at_space h q : In (seed_at h q) seed_space.
Proof. apply seed_space_form, seed_at_form. Qed.

(** ** The set of drawn seeds *)

Lemma seed_set_empty : seed_set []%list.
Proof. split; [constructor | intros x []]. Qed.

Lemma set_add_old s seeds : In s seeds -> set_add s seeds = seeds.
Proof. intro H. unfold set_add. apply set_mem_In in H. now rewrite H. Qed.

Lemma set_add_new s seeds : ~ In s seeds -> set_add s seeds = (seeds ++ [s])%list.
Proof. intro H. unfold set_add. apply set_mem_not_In in H. now rewrite H. Qed.

Lemma seed_set_snoc s seeds :
  seed_set seeds -> In s seed_space -> ~ In s seeds -> seed_set (seeds ++ [s])%list.
Proof.
  intros [Hnd Hincl] Hs Hnew. split.
  - apply NoDup_app; [assumption | repeat constructor; intros [] |].
    intros x Hx [<-|[]]. contradiction.
  - intros x Hx. apply in_app_or in Hx. destruct Hx as [Hx|[<-|[]]]; auto.
Qed.

Lemma seed_set_add s seeds :
  seed_set seeds -> In s seed_space -> seed_set (set_add s seeds).
Proof.
  intros Hset Hs. destruct (in_dec string_dec s seeds) as [Hin|Hnew].
  - now rewrite set_add_old.
  - rewrite set_add_new by assumption. now apply seed_set_snoc.
Qed.

Lemma seed_set_bound seeds :
  seed_set seeds -> List.length seeds <= List.length ADJECTIVES * List.length NOUNS.
Proof.
  intros [Hnd Hincl]. rewrite <- seed_space_length.
  now apply NoDup_incl_length.
Qed.

(** A set that has not filled the seed space misses one of its seeds. *)
Lemma fresh_seed seeds :
  List.length seeds < List.length seed_space ->
  exists s, In s seed_space /\ ~ In s seeds.
Proof.
  intro Hlt.
  destruct (Forall_Exists_dec (fun s => In s seeds)
              (fun s => in_dec string_dec s seeds) seed_space) as [Hall|Hex].
  - exfalso. rewrite Forall_forall in Hall.
    pose proof (NoDup_incl_length seed_space_NoDup Hall). lia.
  - apply Exists_exists in Hex. destruct Hex as [s [Hs Hnew]].
    exists s. split; assumption.
Qed.

(** ** The [while] loop *)

Section Loop.

Variable h : Host.
Variable rng : Rng.
Variable count : Z.

Lemma while_fewer_exit fuel seeds p :
  (count <= Z.of_nat (List.length seeds))%Z ->
  while_fewer fuel h rng count seeds p = Returned (seeds, p).
Proof.
  intro Hge. destruct fuel; simpl;
    (destruct (Z.ltb_spec (Z.of_nat (List.length seeds)) count); [lia | reflexivity]).
Qed.

Lemma while_fewer_step fuel seeds p :
  pools_bound p ->
  (Z.of_nat (List.length seeds) < count)%Z ->
  while_fewer (S fuel) h rng count seeds p
  = while_fewer fuel h rng count
      (set_add (seed_at h (urandom_reads p)) seeds) (after_reads 2 p).
Proof.
  intros Hp Hlt. cbn [while_fewer].
  destruct (Z.ltb_spec (Z.of_nat (List.length seeds)) count); [|lia].
  now rewrite (bind_returned _ _ _ _ _ (generate_seed_returns h (Some rng) p Hp)).
Qed.

Lemma while_fewer_starved seeds p :
  (Z.of_nat (List.length seeds) < count)%Z ->
  while_fewer 0 h rng count seeds p = Running.
Proof.
  intro Hlt. simpl.
  destruct (Z.ltb_spec (Z.of_nat (List.length seeds)) count); [reflexivity|lia].
Qed.

(** More fuel does not change a result already reached. *)
Lemma while_fewer_more_fuel fuel : forall seeds p r,
  while_fewer fuel h rng count seeds p = Returned r ->
  forall fuel', fuel <= fuel' ->
  while_fewer fuel' h rng count seeds p = Returned r.
Proof.
  induction fuel as [|fuel IH]; intros seeds p r Hrun fuel' Hle.
  - destruct (Z.lt_ge_cases (Z.of_nat (List.length seeds)) count) as [Hlt|Hge].
    + rewrite while_fewer_starved in Hrun by assumption. discriminate.
    + rewrite while_fewer_exit in * by assumption. assumption.
  - destruct fuel' as [|fuel']; [lia|].
    cbn [while_fewer] in *.
    destruct (Z.of_nat (List.length seeds) <? count)%Z; [|assumption].
    unfold bind in *.
    destruct (generate_seed h (Some rng) p) as [[s p1]| |]; try discriminate.
    apply IH with (fuel' := fuel') in Hrun; [assumption | lia].
Qed.

(** With more requested than the pools can form the loop never leaves. *)
Lemma while_fewer_oversized fuel : forall seeds p,
  pools_bound p -> seed_set seeds ->
  (Z.of_nat (List.length ADJECTIVES * List.length NOUNS) < count)%Z ->
  while_fewer fuel h rng count seeds p = Running.
Proof.
  induction fuel as [|fuel IH]; intros seeds p Hp Hset Hbig;
    pose proof (seed_set_bound seeds Hset) as Hlen.
  - apply while_fewer_starved. lia.
  - rewrite while_fewer_step by (assumption || lia).
    apply IH; auto using after_reads_bound, seed_set_add, seed_at_space.
Qed.

(** If some later draw is new to the set, the loop gets to add a new seed. *)
Lemma while_fewer_reach k : forall seeds p,
  pools_bound p ->
  (Z.of_nat (List.length seeds) < count)%Z ->
  ~ In (seed_at h (urandom_reads p + 2 * k)) seeds ->
  exists j s,
    In s seed_space /\ ~ In s seeds /\
    forall fuel,
      while_fewer (j + fuel) h rng count seeds p
      = while_fewer fuel h rng count (seeds ++ [s])%list (after_reads (2 * j) p).
Proof.
  induction k as [|k IH]; intros seeds p Hp Hlt Hnew.
  - exists 1, (seed_at h (urandom_reads p)).
    replace (urandom_reads p + 2 * 0) with (urandom_reads p) in Hnew by lia.
    repeat split; [apply seed_at_space | assumption |].
    intro fuel. cbn [Nat.add]. rewrite while_fewer_step by assumption.
    now rewrite set_add_new.
  - destruct (in_dec string_dec (seed_at h (urandom_reads p)) seeds) as [Hold|Hfresh].
    + destruct (IH seeds (after_reads 2 p)) as [j [s [Hs [Hs' Hrun]]]].
      * now apply after_reads_bound.
      * assumption.
      * rewrite after_reads_reads.
        replace (2 + urandom_reads p + 2 * k) with (urandom_reads p + 2 * S k) by lia.
        assumption.
      * exists (S j), s. repeat split; try assumption.
        intro fuel. cbn [Nat.add]. rewrite while_fewer_step by assumption.
        rewrite set_add_old by assumption. rewrite Hrun, after_reads_add.
        f_equal. f_equal. lia.
    + exists 1, (seed_at h (urandom_reads p)).
      repeat split; [apply seed_at_space | assumption |].
      intro fuel. cbn [Nat.add]. rewrite while_fewer_step by assumption.
      now rewrite set_add_new.
Qed.

Lemma fair_source_later q j : fair_source h q -> fair_source h (2 * j + q).
Proof.
  intros Hfair k0 adj noun Ha Hn.
  destruct (Hfair (k0 + j) adj noun Ha Hn) as [k [Hk Hseed]].
  exists (k - j). split; [lia|].
  replace (2 * j + q + 2 * (k - j)) with (q + 2 * k) by lia. assumption.
Qed.

(** Under a fair source the loop leaves with exactly [count] seeds whenever
    the pools can form that many. *)
Lemma while_fewer_progress m : forall seeds p,
  pools_bound p -> seed_set seeds -> fair_source h (urandom_reads p) ->
  (count <= Z.of_nat (List.length ADJECTIVES * List.length NOUNS))%Z ->
  (Z.of_nat (List.length seeds) <= count)%Z ->
  Z.to_nat (count - Z.of_nat (List.length seeds)) = m ->
  exists fuel seeds' k,
    while_fewer fuel h rng count seeds p = Returned (seeds', after_reads k p) /\
    seed_set seeds' /\ Z.of_nat (List.length seeds') = count.
Proof.
  induction m as [|m IH]; intros seeds p Hp Hset Hfair Hfit Hle Hm.
  - exists 0, seeds, 0. repeat split; try apply Hset; try lia.
    rewrite while_fewer_exit by lia. now destruct p.
  - assert (Hlt : (Z.of_nat (List.length seeds) < count)%Z) by lia.
    destruct (fresh_seed seeds) as [s [Hs Hnew]].
    { rewrite seed_space_length. lia. }
    apply seed_space_form in Hs. destruct Hs as [adj [noun [Ha [Hn ->]]]].
    destruct (Hfair 0 adj noun Ha Hn) as [k [_ Hk]]. rewrite <- Hk in Hnew.
    destruct (while_fewer_reach k seeds p Hp Hlt Hnew) as [j [s [Hs [Hs' Hrun]]]].
    destruct (IH (seeds ++ [s])%list (after_reads (2 * j) p))
      as [fuel [seeds' [k' [Hret [Hset' Hcount]]]]].
    + now apply after_reads_bound.
    + now apply seed_set_snoc.
    + rewrite after_reads_reads. now apply fair_source_later.
    + assumption.
    + rewrite length_app. simpl. lia.
    + rewrite length_app. simpl. lia.
    + exists (j + fuel), seeds', (k' + 2 * j). repeat split; try apply Hset'; try assumption.
      rewrite Hrun, Hret, after_reads_add. reflexivity.
Qed.

End Loop.

(** ** The ordering step *)

Lemma decorate_returns h xs : forall p,
  decorate h xs p
  = Returned (combine (keys_from h (mt_calls p) (List.length xs)) xs,
              after_keys (List.length xs) p).
Proof.
  induction xs as [|x xs IH]; intro p.
  - simpl. unfold ret. now destruct p.
  - cbn [decorate]. unfold bind at 1. unfold random_random.
    unfold bind at 1. rewrite IH. unfold ret. cbn [mt_calls].
    f_equal. f_equal. unfold after_keys. simpl. f_equal. lia.
Qed.

Lemma insert_by_key_perm {A} (kx : N * A) l :
  Permutation (insert_by_key kx l) (kx :: l).
Proof.
  induction l as [|ky l IH]; simpl; [apply Permutation_refl|].
  destruct (fst kx <=? fst ky)%N; [apply Permutation_refl|].
  eapply perm_trans; [apply perm_skip, IH | apply perm_swap].
Qed.

Lemma sort_by_key_perm {A} (l : list (N * A)) :
  Permutation (sort_by_key l) l.
Proof.
  induction l as [|kx l IH]; simpl; [constructor|].
  eapply perm_trans; [apply insert_by_key_perm | now apply perm_skip].
Qed.

Lemma insert_by_key_sorted {A} (kx : N * A) l :
  StronglySorted key_le l -> StronglySorted key_le (insert_by_key kx l).
Proof.
  induction 1 as [|ky l Hsorted IH Hall]; simpl.
  - repeat constructor.
  - destruct (N.leb_spec (fst kx) (fst ky)) as [Hle|Hgt].
    + constructor; [now constructor|].
      constructor; [assumption|].
      eapply Forall_impl; [|exact Hall].
      intros kz Hz. unfold key_le in *. lia.
    + constructor; [assumption|].
      apply (Permutation_Forall (Permutation_sym (insert_by_key_perm kx l))).
      constructor; [unfold key_le; lia | assumption].
Qed.

Lemma sort_by_key_sorted {A} (l : list (N * A)) :
  StronglySorted key_le (sort_by_key l).
Proof.
  induction l as [|kx l IH]; simpl; [constructor|].
  now apply insert_by_key_sorted.
Qed.

Lemma map_snd_combine {A B} (ks : list A) (xs : list B) :
  List.length ks = List.length xs -> map snd (combine ks xs) = xs.
Proof.
  revert xs. induction ks as [|k ks IH]; intros [|x xs] H; simpl in *;
    try discriminate; [reflexivity|].
  f_equal. apply IH. lia.
Qed.

Lemma keys_from_length h q n : List.length (keys_from h q n) = n.
Proof. unfold keys_from. now rewrite length_map, length_seq. Qed.

Lemma keyed_order_perm h q seeds : Permutation (keyed_order h q seeds) seeds.
Proof.
  unfold keyed_order.
  eapply perm_trans; [apply Permutation_map, sort_by_key_perm|].
  rewrite map_snd_combine by apply keys_from_length.
  apply set_iter_perm.
Qed.

Lemma sorted_random_key_returns h seeds p :
  sorted_random_key h seeds p
  = Returned (keyed_order h (mt_calls p) seeds,
              after_keys (List.length seeds) p).
Proof.
  unfold sorted_random_key, bind. rewrite decorate_returns. unfold ret, keyed_order.
  now rewrite (Permutation_length (set_iter_perm h seeds)).
Qed.

Lemma slice_to_all {A} count (l : list A) :
  (Z.of_nat (List.length l) <= count)%Z -> slice_to count l = l.
Proof.
  intro H. unfold slice_to.
  destruct (Z.leb_spec 0 count); [|lia].
  apply firstn_all2. lia.
Qed.

Lemma slice_to_nil {A} count : slice_to count (@nil A) = []%list.
Proof. unfold slice_to. destruct (0 <=? count)%Z; apply firstn_nil. Qed.

Lemma order_and_truncate_returns h count seeds p :
  order_and_truncate h count seeds p
  = Returned (slice_to count (keyed_order h (mt_calls p) seeds),
              after_keys (List.length seeds) p).
Proof.
  unfold order_and_truncate, bind. now rewrite sorted_random_key_returns.
Qed.

Lemma keyed_order_nil h q : keyed_order h q []%list = []%list.
Proof. apply Permutation_nil, Permutation_sym, keyed_order_perm. Qed.

Lemma after_keys_zero p : after_keys 0 p = p.
Proof. now destruct p. Qed.

Lemma after_reads_zero p : after_reads 0 p = p.
Proof. now destruct p. Qed.

(** ** The enumerating source is fair *)

Lemma enumerating_even k : enumerating (2 * k) = k / List.length NOUNS.
Proof.
  unfold enumerating. rewrite Nat.even_mul. cbn [Nat.even orb].
  now rewrite (Nat.mul_comm 2 k), Nat.div_mul by discriminate.
Qed.

Lemma enumerating_odd k : enumerating (S (2 * k)) = k mod List.length NOUNS.
Proof.
  unfold enumerating. rewrite Nat.even_succ, <- Nat.negb_even, Nat.even_mul.
  cbn [Nat.even orb negb].
  replace (S (2 * k) / 2) with k; [reflexivity|].
  apply (Nat.div_unique (S (2 * k)) 2 k 1); lia.
Qed.

Lemma enumerating_fair : fair_source (plain_host enumerating) 0.
Proof.
  intros k0 adj noun Ha Hn.
  destruct (In_nth _ _ "" Ha) as [i [Hi Hadj]].
  destruct (In_nth _ _ "" Hn) as [j [Hj Hnoun]].
  exists ((i + k0 * List.length ADJECTIVES) * List.length NOUNS + j).
  rewrite ADJECTIVES_length in Hi |- *. rewrite NOUNS_length in Hj |- *.
  split; [lia|].
  unfold seed_at. cbn [Nat.add os_urandom plain_host].
  rewrite enumerating_even, enumerating_odd.
  rewrite ADJECTIVES_length, NOUNS_length.
  rewrite Nat.div_add_l by discriminate.
  rewrite (Nat.div_small j 107) by assumption.
  rewrite Nat.add_0_r, Nat.Div0.mod_add, (Nat.mod_small i 84) by assumption.
  rewrite Nat.add_comm, Nat.Div0.mod_add.
  rewrite !(Nat.mod_small j 107) by assumption.
  now rewrite Hadj, Hnoun.
Qed.

Lemma module_loaded_bound : pools_bound module_loaded.
Proof. split; reflexivity. Qed.

(** ** generate_seeds: what it returns and when *)

Lemma generate_seeds_unfold fuel h count p :
  generate_seeds fuel h count p
  = bind (while_fewer fuel h SystemRandom count []%list)
         (order_and_truncate h count) p.
Proof. reflexivity. Qed.

(** When the loop leaves with [seeds], the call returns them in key order. *)
Lemma generate_seeds_of_loop fuel h count p seeds p1 :
  while_fewer fuel h SystemRandom count []%list p = Returned (seeds, p1) ->
  generate_seeds fuel h count p
  = Returned (slice_to count (keyed_order h (mt_calls p1) seeds),
              after_keys (List.length seeds) p1).
Proof.
  intro Hloop. rewrite generate_seeds_unfold, (bind_returned _ _ _ _ _ Hloop).
  apply order_and_truncate_returns.
Qed.

Lemma generate_seeds_loop_inv fuel h count p l p' :
  generate_seeds fuel h count p = Returned (l, p') ->
  exists seeds p1,
    while_fewer fuel h SystemRandom count []%list p = Returned (seeds, p1) /\
    l = slice_to count (keyed_order h (mt_calls p1) seeds) /\
    p' = after_keys (List.length seeds) p1.
Proof.
  intro Hrun. rewrite generate_seeds_unfold in Hrun.
  apply bind_inv in Hrun. destruct Hrun as [seeds [p1 [Hloop Horder]]].
  rewrite order_and_truncate_returns in Horder. inversion Horder.
  now exists seeds, p1.
Qed.

Lemma generate_seeds_never_leaves fuel h count p :
  pools_bound p ->
  (Z.of_nat (List.length ADJECTIVES * List.length NOUNS) < count)%Z ->
  generate_seeds fuel h count p = Running.
Proof.
  intros Hp Hbig. rewrite generate_seeds_unfold. unfold bind.
  now rewrite while_fewer_oversized by auto using seed_set_empty.
Qed.

Lemma generate_seeds_below_zero fuel h count p :
  (count < 0)%Z -> generate_seeds fuel h count p = Returned ([]%list, p).
Proof.
  intro Hneg.
  rewrite (generate_seeds_of_loop fuel h count p []%list p).
  - now rewrite keyed_order_nil, slice_to_nil, after_keys_zero.
  - apply while_fewer_exit. simpl. lia.
Qed.

Lemma running_not_failing {A} (run : nat -> outcome A) :
  hangs run -> ~ fails_with_error run.
Proof. intros Hhang [fuel [e He]]. rewrite Hhang in He. discriminate. Qed.

Lemma returned_not_failing {A} (run : nat -> outcome A) a :
  (forall fuel, run fuel = Returned a) -> ~ fails_with_error run.
Proof. intros Hret [fuel [e He]]. rewrite Hret in He. discriminate. Qed.

(** Under a fair source a request the pools can meet is met. *)
Lemma generate_seeds_fair h p count :
  pools_bound p ->
  fair_source h (urandom_reads p) ->
  (0 <= count <= Z.of_nat (List.length ADJECTIVES * List.length NOUNS))%Z ->
  exists l k,
    returns (fun fuel => generate_seeds fuel h count p)
            (l, after_keys (List.length l) (after_reads k p)) /\
    Z.of_nat (List.length l) = count /\ NoDup l /\ Forall seed_form l.
Proof.
  intros Hp Hfair [Hlo Hhi].
  destruct (while_fewer_progress h SystemRandom count (Z.to_nat count)
              []%list p Hp seed_set_empty Hfair Hhi)
    as [fuel [seeds [k [Hloop [[Hnd Hincl] Hlen]]]]];
    [simpl; lia | simpl; lia |].
  pose proof (keyed_order_perm h (mt_calls (after_reads k p)) seeds) as Hperm.
  exists (keyed_order h (mt_calls (after_reads k p)) seeds), k.
  rewrite (Permutation_length Hperm).
  split; [|split; [|split]].
  - exists fuel. intros fuel' Hle.
    rewrite (generate_seeds_of_loop fuel' h count p seeds (after_reads k p)).
    + rewrite slice_to_all; [reflexivity|].
      rewrite (Permutation_length Hperm). lia.
    + now apply while_fewer_more_fuel with (fuel := fuel).
  - assumption.
  - apply (Permutation_NoDup (Permutation_sym Hperm) Hnd).
  - apply Forall_forall. intros s Hs. apply seed_space_form, Hincl.
    apply (Permutation_in _ Hperm Hs).
Qed.

(** C2, as the code has it: for every count above the number of pairs the two
    pools form (84 * 107 = 8988), [generate_seeds(count)] neither returns nor
    raises: whatever the random source answers, the loop is still running
    after any number of draws. *)
Theorem generate_seeds_oversized_hangs h p count :
  pools_bound p ->
  (Z.of_nat (List.length ADJECTIVES * List.length NOUNS) < count)%Z ->
  hangs (fun fuel => generate_seeds fuel h count p).
Proof.
  intros Hp Hbig fuel. now apply generate_seeds_never_leaves.
Qed.

Lemma generate_seeds_oversized_hangs_witness :
  pools_bound module_loaded /\
  hangs (fun fuel => generate_seeds fuel (plain_host enumerating) 8989 module_loaded).
Proof.
  split; [exact module_loaded_bound|].
  apply (generate_seeds_oversized_hangs (plain_host enumerating) module_loaded 8989).
  - exact module_loaded_bound.
  - rewrite ADJECTIVES_length, NOUNS_length. vm_compute. reflexivity.
Defined.

(** Against C2 as stated: one pair more than the pools form is requested, and
    the call hangs instead of failing with an error. *)
Lemma generate_seeds_oversized_no_error :
  (Z.of_nat (List.length ADJECTIVES * List.length NOUNS) < 8989)%Z /\
  hangs (fun fuel => generate_seeds fuel (plain_host enumerating) 8989 module_loaded) /\
  ~ fails_with_error
      (fun fuel => generate_seeds fuel (plain_host enumerating) 8989 module_loaded).
Proof.
  assert (Hbig : (Z.of_nat (List.length ADJECTIVES * List.length NOUNS) < 8989)%Z).
  { rewrite ADJECTIVES_length, NOUNS_length. vm_compute. reflexivity. }
  assert (Hhang : hangs (fun fuel =>
            generate_seeds fuel (plain_host enumerating) 8989 module_loaded)).
  { intro fuel. apply generate_seeds_never_leaves;
      [exact module_loaded_bound | exact Hbig]. }
  auto using running_not_failing.
Qed.

(** C3, as the code has it: for every negative count [generate_seeds(count)]
    returns the empty sequence at once; nothing is checked or rejected, no
    random source is read and the process is left as it was. *)
Theorem generate_seeds_negative_returns_empty fuel h p count :
  (count < 0)%Z -> generate_seeds fuel h count p = Returned ([]%list, p).
Proof. apply generate_seeds_below_zero. Qed.

Lemma generate_seeds_negative_returns_empty_witness :
  generate_seeds 0 (plain_host enumerating) (-1) module_loaded
  = Returned ([]%list, module_loaded).
Proof.
  apply (generate_seeds_negative_returns_empty 0 (plain_host enumerating)
           module_loaded (-1)).
  reflexivity.
Defined.

(** Against C3 as stated: [generate_seeds(-1)] returns normally, with an empty
    list, and no run of it fails. *)
Lemma generate_seeds_negative_not_rejected :
  (-1 < 0)%Z /\
  generate_seeds 0 (plain_host descending) (-1) module_loaded
  = Returned ([]%list, module_loaded) /\
  ~ fails_with_error
      (fun fuel => generate_seeds fuel (plain_host descending) (-1) module_loaded).
Proof.
  split; [reflexivity|]. split.
  - now apply generate_seeds_below_zero.
  - apply returned_not_failing with (a := ([]%list, module_loaded)).
    intro fuel. now apply generate_seeds_below_zero.
Qed.

(** ** What a returning run has done *)

Lemma set_add_length s seeds :
  List.length seeds <= List.length (set_add s seeds) <= S (List.length seeds).
Proof.
  unfold set_add. destruct (set_mem s seeds); [lia|].
  rewrite length_app. simpl. lia.
Qed.

(** The loop only ever leaves with a set of distinct seeds of the space, after
    an even number of reads of the entropy source and none of the other
    generator; starting below [count] it leaves with exactly [count]. *)
Lemma while_fewer_invariant h rng count fuel : forall seeds p seeds' p',
  pools_bound p -> seed_set seeds ->
  while_fewer fuel h rng count seeds p = Returned (seeds', p') ->
  seed_set seeds' /\
  (exists k, p' = after_reads (2 * k) p) /\
  ((Z.of_nat (List.length seeds) <= count)%Z ->
   Z.of_nat (List.length seeds') = count).
Proof.
  induction fuel as [|fuel IH]; intros seeds p seeds' p' Hp Hset Hrun;
    destruct (Z.lt_ge_cases (Z.of_nat (List.length seeds)) count) as [Hlt|Hge].
  - rewrite while_fewer_starved in Hrun by assumption. discriminate.
  - rewrite while_fewer_exit in Hrun by assumption. inversion Hrun; subst.
    repeat split; try apply Hset; [|lia].
    exists 0. now rewrite after_reads_zero.
  - rewrite while_fewer_step in Hrun by assumption.
    apply IH in Hrun; auto using after_reads_bound, seed_set_add, seed_at_space.
    destruct Hrun as [Hset' [[k ->] Hlen]].
    split; [assumption|]. split.
    + exists (S k). rewrite after_reads_add. f_equal. lia.
    + intros _. apply Hlen.
      pose proof (set_add_length (seed_at h (urandom_reads p)) seeds). lia.
  - rewrite while_fewer_exit in Hrun by assumption. inversion Hrun; subst.
    repeat split; try apply Hset; [|lia].
    exists 0. now rewrite after_reads_zero.
Qed.

(** A returning [generate_seeds]: the set the loop left with, listed in key
    order; the slice drops nothing. *)
Lemma generate_seeds_returned fuel h count p l p' :
  pools_bound p ->
  generate_seeds fuel h count p = Returned (l, p') ->
  exists seeds k,
    while_fewer fuel h SystemRandom count []%list p
    = Returned (seeds, after_reads (2 * k) p) /\
    seed_set seeds /\
    Z.of_nat (List.length seeds) = Z.max 0 count /\
    l = keyed_order h (mt_calls p) seeds /\
    p' = after_keys (List.length seeds) (after_reads (2 * k) p).
Proof.
  intros Hp Hrun.
  destruct (generate_seeds_loop_inv _ _ _ _ _ _ Hrun)
    as [seeds [p1 [Hloop [Hl Hp']]]].
  destruct (while_fewer_invariant _ _ _ _ _ _ _ _ Hp seed_set_empty Hloop)
    as [Hset [[k ->] Hlen]].
  exists seeds, k.
  destruct (Z.lt_ge_cases count 0) as [Hneg|Hpos].
  - rewrite while_fewer_exit in Hloop by (simpl; lia).
    inversion Hloop as [[Hseeds Hk]]. subst seeds.
    rewrite keyed_order_nil, slice_to_nil in Hl.
    rewrite while_fewer_exit by (simpl; lia).
    rewrite keyed_order_nil, <- Hk.
    repeat split; auto using seed_set_empty; try (intros x []).
    + constructor.
    + simpl. lia.
  - specialize (Hlen ltac:(simpl; lia)).
    repeat split; try apply Hset; try assumption; [lia|].
    rewrite Hl. apply slice_to_all.
    rewrite (Permutation_length (keyed_order_perm _ _ _)). lia.
Qed.

(** C1: for every count from 0 up to the number of pairs the two pools form,
    [generate_seeds(count)] returns a sequence of exactly [count] seeds that
    are pairwise distinct: every run that returns does so with such a
    sequence, and a run does return when the random source is fair, that is,
    keeps producing every pair, as uniform independent draws do almost
    surely. *)
Theorem generate_seeds_count_distinct h p count :
  pools_bound p ->
  (0 <= count <= Z.of_nat (List.length ADJECTIVES * List.length NOUNS))%Z ->
  (forall fuel l p',
      generate_seeds fuel h count p = Returned (l, p') ->
      Z.of_nat (List.length l) = count /\ NoDup l) /\
  (fair_source h (urandom_reads p) ->
   exists l p',
     returns (fun fuel => generate_seeds fuel h count p) (l, p') /\
     Z.of_nat (List.length l) = count /\ NoDup l).
Proof.
  intros Hp Hrange. split.
  - intros fuel l p' Hrun.
    destruct (generate_seeds_returned _ _ _ _ _ _ Hp Hrun)
      as [seeds [k [_ [[Hnd _] [Hlen [-> _]]]]]].
    pose proof (keyed_order_perm h (mt_calls p) seeds) as Hperm.
    split.
    + rewrite (Permutation_length Hperm). lia.
    + apply (Permutation_NoDup (Permutation_sym Hperm) Hnd).
  - intro Hfair.
    destruct (generate_seeds_fair h p count Hp Hfair Hrange)
      as [l [k [Hret [Hlen [Hnd _]]]]].
    now exists l, (after_keys (List.length l) (after_reads k p)).
Qed.

Lemma generate_seeds_count_distinct_witness :
  (forall fuel l p',
      generate_seeds fuel (plain_host enumerating) 8988 module_loaded
      = Returned (l, p') ->
      Z.of_nat (List.length l) = 8988%Z /\ NoDup l) /\
  (exists l p',
     returns (fun fuel => generate_seeds fuel (plain_host enumerating) 8988 module_loaded)
             (l, p') /\
     Z.of_nat (List.length l) = 8988%Z /\ NoDup l).
Proof.
  destruct (generate_seeds_count_distinct (plain_host enumerating) module_loaded 8988
              module_loaded_bound) as [Hany Hfair].
  - rewrite ADJECTIVES_length, NOUNS_length. vm_compute. split; discriminate.
  - split; [exact Hany | exact (Hfair enumerating_fair)].
Defined.

(** ** The shape of a seed *)

(** C4: every seed [generate_seed] produces, and so every element of a
    sequence [generate_seeds] returns, is [<adjective>-<noun>] with the
    adjective from ADJECTIVES, the noun from NOUNS and ['-'] between them. *)
Theorem seeds_have_seed_form h p :
  pools_bound p ->
  (forall rng, exists s p',
      generate_seed h rng p = Returned (s, p') /\ seed_form s) /\
  (forall fuel count l p',
      generate_seeds fuel h count p = Returned (l, p') -> Forall seed_form l).
Proof.
  intro Hp. split.
  - intro rng. exists (seed_at h (urandom_reads p)), (after_reads 2 p).
    split; [now apply generate_seed_returns | apply seed_at_form].
  - intros fuel count l p' Hrun.
    destruct (generate_seeds_returned _ _ _ _ _ _ Hp Hrun)
      as [seeds [k [_ [[_ Hincl] [_ [-> _]]]]]].
    apply Forall_forall. intros s Hs. apply seed_space_form, Hincl.
    apply (Permutation_in _ (keyed_order_perm _ _ _) Hs).
Qed.

Lemma seeds_have_seed_form_witness :
  (forall rng, exists s p',
      generate_seed (plain_host descending) rng module_loaded = Returned (s, p')
      /\ seed_form s) /\
  (forall fuel count l p',
      generate_seeds fuel (plain_host descending) count module_loaded
      = Returned (l, p') -> Forall seed_form l).
Proof.
  apply (seeds_have_seed_form (plain_host descending) module_loaded).
  split; reflexivity.
Defined.

(** C10: no word of either pool contains ['-'], so every generated seed has
    exactly one ['-'], and splitting it there gives back the adjective and
    the noun it was joined from. *)
Theorem generated_seed_splits_back h rng p :
  pools_bound p ->
  (forall w, In w ADJECTIVES \/ In w NOUNS -> count_char dash w = 0) /\
  exists adj noun p',
    In adj ADJECTIVES /\ In noun NOUNS /\
    generate_seed h rng p = Returned (adj ++ "-" ++ noun, p') /\
    count_char dash (adj ++ "-" ++ noun) = 1 /\
    split_on dash (adj ++ "-" ++ noun) = [adj; noun]%list.
Proof.
  intro Hp. split.
  - intros w [Hw|Hw]; [now apply ADJECTIVES_no_dash | now apply NOUNS_no_dash].
  - destruct (seed_at_form h (urandom_reads p)) as [adj [noun [Ha [Hn Heq]]]].
    exists adj, noun, (after_reads 2 p).
    pose proof (ADJECTIVES_no_dash _ Ha) as Hda.
    pose proof (NOUNS_no_dash _ Hn) as Hdn.
    repeat split; try assumption.
    + rewrite <- Heq. now apply generate_seed_returns.
    + rewrite count_joined, Hda, Hdn. reflexivity.
    + now apply split_joined.
Qed.

Lemma generated_seed_splits_back_witness :
  generate_seed (plain_host enumerating) None module_loaded
  = Returned ("amber-anvil", after_reads 2 module_loaded) /\
  (forall w, In w ADJECTIVES \/ In w NOUNS -> count_char dash w = 0) /\
  exists adj noun p',
    In adj ADJECTIVES /\ In noun NOUNS /\
    generate_seed (plain_host enumerating) None module_loaded
    = Returned (adj ++ "-" ++ noun, p') /\
    count_char dash (adj ++ "-" ++ noun) = 1 /\
    split_on dash (adj ++ "-" ++ noun) = [adj; noun]%list.
Proof.
  split; [reflexivity|].
  apply (generated_seed_splits_back (plain_host enumerating) None module_loaded).
  split; reflexivity.
Defined.

(** ** The size of the pools *)

(** C6, as the code has it: the adjective pool has 84 words and the noun pool
    107, so the pools form 84 * 107 = 8988 seeds; these are pairwise distinct
    and are exactly the strings [generate_seed] can return. *)
Theorem pools_form_8988_seeds :
  List.length ADJECTIVES = 84 /\
  List.length NOUNS = 107 /\
  Z.of_nat (List.length seed_space) = 8988%Z /\
  NoDup seed_space /\
  (forall s, In s seed_space <->
             exists h rng p', generate_seed h rng module_loaded = Returned (s, p')).
Proof.
  split; [reflexivity|]. split; [reflexivity|].
  split; [rewrite seed_space_length; reflexivity|].
  split; [apply seed_space_NoDup|].
  intro s. split.
  - intro Hs. apply seed_space_form in Hs.
    destruct Hs as [adj [noun [Ha [Hn ->]]]].
    destruct (In_nth _ _ "" Ha) as [i [Hi Hadj]].
    destruct (In_nth _ _ "" Hn) as [j [Hj Hnoun]].
    exists (plain_host (fixed_pair i j)), None, (after_reads 2 module_loaded).
    rewrite generate_seed_returns by exact module_loaded_bound.
    unfold seed_at. cbn [urandom_reads module_loaded os_urandom plain_host fixed_pair Nat.even].
    rewrite !Nat.mod_small by assumption.
    now rewrite Hadj, Hnoun.
  - intros [h [rng [p' Hrun]]].
    rewrite generate_seed_returns in Hrun by exact module_loaded_bound.
    inversion Hrun. apply seed_at_space.
Qed.

(** Against C6 as stated: the pools hold 84 and 107 words, not 86 and 110,
    and form 8988 seeds, not 9460. *)
Lemma pools_are_not_86_by_110 :
  List.length ADJECTIVES = 84 /\ List.length NOUNS = 107 /\
  List.length ADJECTIVES <> 86 /\ List.length NOUNS <> 110 /\
  Z.of_nat (List.length ADJECTIVES * List.length NOUNS) <> 9460%Z.
Proof.
  rewrite ADJECTIVES_length, NOUNS_length.
  repeat split; discriminate.
Qed.

(** ** The final ordering step *)

(** C5, as the code has it: the final step lists the set of drawn seeds in
    the set's own iteration order, hands each a key from the separate
    module-global source, sorts stably by those keys alone (there is no
    alphabetical sort), and slices to [count], which drops nothing.  The
    result is a permutation of the set of distinct drawn seeds; the loop reads
    only the entropy source and the ordering step only the other one. *)
Theorem final_order_is_by_random_keys fuel h count p l p' :
  pools_bound p ->
  generate_seeds fuel h count p = Returned (l, p') ->
  exists seeds k keyed,
    while_fewer fuel h SystemRandom count []%list p
    = Returned (seeds, after_reads (2 * k) p) /\
    NoDup seeds /\
    keyed = sort_by_key (combine (keys_from h (mt_calls p) (List.length seeds))
                                 (set_iter h seeds)) /\
    StronglySorted key_le keyed /\
    l = map snd keyed /\
    slice_to count (map snd keyed) = l /\
    Permutation l seeds /\
    urandom_reads p' = 2 * k + urandom_reads p /\
    mt_calls p' = List.length seeds + mt_calls p.
Proof.
  intros Hp Hrun.
  destruct (generate_seeds_returned _ _ _ _ _ _ Hp Hrun)
    as [seeds [k [Hloop [[Hnd _] [Hlen [Hl Hp']]]]]].
  destruct (generate_seeds_loop_inv _ _ _ _ _ _ Hrun)
    as [seeds0 [p1 [Hloop0 [Hl0 _]]]].
  rewrite Hloop in Hloop0. inversion Hloop0; subst seeds0 p1. clear Hloop0.
  assert (Hiter : List.length (set_iter h seeds) = List.length seeds)
    by apply (Permutation_length (set_iter_perm h seeds)).
  exists seeds, k, (sort_by_key (combine (keys_from h (mt_calls p) (List.length seeds))
                                         (set_iter h seeds))).
  assert (Hl' : l = map snd (sort_by_key
                   (combine (keys_from h (mt_calls p) (List.length seeds))
                            (set_iter h seeds)))).
  { rewrite Hl. unfold keyed_order. now rewrite Hiter. }
  repeat split; try assumption.
  - apply sort_by_key_sorted.
  - rewrite <- Hl'. rewrite Hl0 at 2. f_equal. exact Hl.
  - rewrite Hl. apply keyed_order_perm.
  - now rewrite Hp'.
  - now rewrite Hp'.
Qed.

Lemma final_order_is_by_random_keys_witness :
  generate_seeds 2 (plain_host descending) 2 module_loaded
  = Returned (["amber-brook"; "amber-bridge"]%list,
              after_keys 2 (after_reads 4 module_loaded)) /\
  exists seeds k keyed,
    while_fewer 2 (plain_host descending) SystemRandom 2 []%list module_loaded
    = Returned (seeds, after_reads (2 * k) module_loaded) /\
    NoDup seeds /\
    keyed = sort_by_key (combine (keys_from (plain_host descending) 0 (List.length seeds))
                                 (set_iter (plain_host descending) seeds)) /\
    StronglySorted key_le keyed /\
    ["amber-brook"; "amber-bridge"]%list = map snd keyed /\
    slice_to 2 (map snd keyed) = ["amber-brook"; "amber-bridge"]%list /\
    Permutation ["amber-brook"; "amber-bridge"]%list seeds /\
    urandom_reads (after_keys 2 (after_reads 4 module_loaded)) = 2 * k + 0 /\
    mt_calls (after_keys 2 (after_reads 4 module_loaded)) = List.length seeds + 0.
Proof.
  split; [vm_compute; reflexivity|].
  apply (final_order_is_by_random_keys 2 (plain_host descending) 2 module_loaded
           ["amber-brook"; "amber-bridge"]%list
           (after_keys 2 (after_reads 4 module_loaded))).
  - split; reflexivity.
  - vm_compute. reflexivity.
Defined.

(** Against C5 as stated: with the seeds drawn in the order amber-brook,
    amber-bridge, a set that iterates in that order and rising keys, the code
    returns them as drawn, whereas shuffling the alphabetically sorted set
    with the same keys gives amber-bridge first. *)
Lemma final_order_is_not_a_shuffle_of_the_sorted_set :
  generate_seeds 2 (plain_host descending) 2 module_loaded
  = Returned (["amber-brook"; "amber-bridge"]%list,
              after_keys 2 (after_reads 4 module_loaded)) /\
  generate_seeds_as_worded 2 (plain_host descending) 2 module_loaded
  = Returned (["amber-bridge"; "amber-brook"]%list,
              after_keys 2 (after_reads 4 module_loaded)).
Proof. split; vm_compute; reflexivity. Qed.

(** ** The two random sources *)

(** [generate_seed] on any pools: it reads two answers of the entropy source
    and nothing else of the host. *)
Lemma generate_seed_general h rng p :
  generate_seed h rng p
  = match adjectives p, nouns p with
    | a :: _, n :: _ =>
        Returned (nth (os_urandom h (urandom_reads p) mod List.length (adjectives p))
                      (adjectives p) a
                  ++ "-" ++
                  nth (os_urandom h (S (urandom_reads p)) mod List.length (nouns p))
                      (nouns p) n,
                  after_reads 2 p)
    | _, _ => Raised (IndexError "Cannot choose from an empty sequence")
    end.
Proof.
  unfold generate_seed.
  assert (Hrng : forall (k : Rng -> M string),
             bind (match rng with None => ret SystemRandom | Some r => ret r end) k p
             = k SystemRandom p).
  { intro k. destruct rng as [[]|]; reflexivity. }
  rewrite Hrng. unfold load_global. cbv beta delta [bind] iota.
  destruct (adjectives p) as [|a adjs] eqn:Ha; [reflexivity|].
  unfold choice at 1. cbv beta iota. cbn [nouns].
  destruct (nouns p) as [|n ns] eqn:Hn; [reflexivity|].
  unfold choice, ret, after_reads.
  cbn [adjectives nouns urandom_reads mt_calls stdout files].
  rewrite Ha, Hn. reflexivity.
Qed.

(** The draws depend on the entropy source alone: two hosts with the same
    entropy answers, whatever their floats, set orders and hashes, make the
    loop end the same way with the same set, and the loop asks the
    module-global generator for nothing. *)
Lemma draws_read_entropy_only h1 h2 rng count fuel : forall seeds p1 p2,
  same_entropy h1 h2 ->
  adjectives p1 = adjectives p2 -> nouns p1 = nouns p2 ->
  urandom_reads p1 = urandom_reads p2 ->
  match while_fewer fuel h1 rng count seeds p1,
        while_fewer fuel h2 rng count seeds p2 with
  | Returned (s1, q1), Returned (s2, q2) =>
      s1 = s2 /\ urandom_reads q1 = urandom_reads q2 /\
      mt_calls q1 = mt_calls p1 /\ mt_calls q2 = mt_calls p2
  | Raised e1, Raised e2 => e1 = e2
  | Running, Running => True
  | _, _ => False
  end.
Proof.
  induction fuel as [|fuel IH]; intros seeds p1 p2 Hsame Ha Hn Hq;
    cbn [while_fewer];
    destruct (Z.of_nat (List.length seeds) <? count)%Z;
    try (unfold ret; now auto); try exact I.
  unfold bind. rewrite !generate_seed_general, <- Ha, <- Hn, <- Hq, <- !Hsame.
  destruct (adjectives p1) as [|a adjs] eqn:Ha1; [reflexivity|].
  destruct (nouns p1) as [|n ns] eqn:Hn1; [reflexivity|].
  apply (IH _ (after_reads 2 p1) (after_reads 2 p2)); try assumption;
    cbn [after_reads adjectives nouns urandom_reads]; congruence.
Qed.

(** ** The pools are only read *)

Create HintDb pools.

Lemma keeps_pools_ret {A} (a : A) : keeps_pools (ret a).
Proof. intros p a' p' H. inversion H. auto. Qed.

Lemma keeps_pools_bind {A B} (m : M A) (k : A -> M B) :
  keeps_pools m -> (forall a, keeps_pools (k a)) -> keeps_pools (bind m k).
Proof.
  intros Hm Hk p b p'' Hrun. apply bind_inv in Hrun.
  destruct Hrun as [a [p' [H1 H2]]].
  apply Hm in H1. apply Hk in H2. destruct H1, H2. split; congruence.
Qed.

Lemma keeps_pools_spin {A} : keeps_pools (@spin A).
Proof. intros p a p' H. discriminate. Qed.

Lemma keeps_pools_load_global {A} (f : Proc -> A) : keeps_pools (load_global f).
Proof. intros p a p' H. inversion H. auto. Qed.

Lemma keeps_pools_choice h rng seq : keeps_pools (choice h rng seq).
Proof.
  intros p a p' H. unfold choice in H.
  destruct seq; [discriminate|]. inversion H. auto.
Qed.

Lemma keeps_pools_random_random h : keeps_pools (random_random h).
Proof. intros p a p' H. inversion H. auto. Qed.

Lemma keeps_pools_print text : keeps_pools (print text).
Proof. intros p a p' H. inversion H. auto. Qed.

Lemma keeps_pools_write_text name text : keeps_pools (write_text name text).
Proof. intros p a p' H. inversion H. auto. Qed.

#[local] Hint Resolve keeps_pools_ret keeps_pools_spin keeps_pools_load_global
  keeps_pools_choice keeps_pools_random_random keeps_pools_print
  keeps_pools_write_text : pools.

Ltac pools_step :=
  repeat (first [ solve [auto with pools] | apply keeps_pools_bind; [|intro] ]).

Lemma keeps_pools_generate_seed h rng : keeps_pools (generate_seed h rng).
Proof. unfold generate_seed. destruct rng; pools_step. Qed.

#[local] Hint Resolve keeps_pools_generate_seed : pools.

Lemma keeps_pools_while_fewer h rng count fuel :
  forall seeds, keeps_pools (while_fewer fuel h rng count seeds).
Proof.
  induction fuel as [|fuel IH]; intro seeds; cbn [while_fewer];
    destruct (Z.of_nat (List.length seeds) <? count)%Z; pools_step.
Qed.

Lemma keeps_pools_decorate h xs : keeps_pools (decorate h xs).
Proof. induction xs as [|x xs IH]; cbn [decorate]; pools_step. Qed.

#[local] Hint Resolve keeps_pools_while_fewer keeps_pools_decorate : pools.

Lemma keeps_pools_generate_seeds fuel h count :
  keeps_pools (generate_seeds fuel h count).
Proof.
  unfold generate_seeds, order_and_truncate, sorted_random_key. pools_step.
Qed.

Lemma keeps_pools_for_each {A} (xs : list A) (body : A -> M unit) :
  (forall x, keeps_pools (body x)) -> keeps_pools (for_each xs body).
Proof.
  intro Hbody. induction xs as [|x xs IH]; cbn [for_each]; pools_step.
Qed.

#[local] Hint Resolve keeps_pools_generate_seeds : pools.

Lemma keeps_pools_main fuel h count export : keeps_pools (main fuel h count export).
Proof.
  unfold main. destruct export; pools_step;
    apply keeps_pools_for_each; intro; auto with pools.
Qed.

#[local] Hint Resolve keeps_pools_main : pools.

Lemma keeps_pools_run_call h c : keeps_pools (run_call h c).
Proof. destruct c; cbn [run_call]; pools_step. Qed.

Lemma keeps_pools_run_calls h cs : keeps_pools (run_calls h cs).
Proof.
  induction cs as [|c cs IH]; cbn [run_calls]; pools_step.
  apply keeps_pools_run_call.
Qed.

(** C7: no generator operation mutates the word pools: after any sequence of
    calls to [generate_seed], [generate_seeds] (and [main]) the two pools have
    the contents, and so the sizes, they had before. *)
Theorem pools_never_mutated h cs p p' :
  run_calls h cs p = Returned (tt, p') ->
  adjectives p' = adjectives p /\ nouns p' = nouns p /\
  List.length (adjectives p') = List.length (adjectives p) /\
  List.length (nouns p') = List.length (nouns p).
Proof.
  intro Hrun. apply keeps_pools_run_calls in Hrun.
  destruct Hrun as [Ha Hn]. rewrite Ha, Hn. auto.
Qed.

Lemma pools_never_mutated_witness :
  exists p',
    run_calls (plain_host enumerating) sample_calls module_loaded = Returned (tt, p') /\
    adjectives p' = ADJECTIVES /\ nouns p' = NOUNS /\
    List.length (adjectives p') = 84 /\
    List.length (nouns p') = 107.
Proof.
  destruct (run_calls (plain_host enumerating) sample_calls module_loaded)
    as [[[] p']| |] eqn:Hrun; [| vm_compute in Hrun; discriminate ..].
  exists p'. split; [reflexivity|].
  exact (pools_never_mutated (plain_host enumerating) sample_calls module_loaded p' Hrun).
Defined.

(** ** Export *)

Lemma print_bind {B} text (k : unit -> M B) a n u m out fs :
  bind (print text) k (mkProc a n u m out fs)
  = k tt (mkProc a n u m (out ++ [text])%list fs).
Proof. reflexivity. Qed.

Lemma print_last text a n u m out fs :
  print text (mkProc a n u m out fs)
  = Returned (tt, mkProc a n u m (out ++ [text])%list fs).
Proof. reflexivity. Qed.

Lemma write_text_bind {B} name text (k : unit -> M B) a n u m out fs :
  bind (write_text name text) k (mkProc a n u m out fs)
  = k tt (mkProc a n u m out
            ((name, text)
               :: filter (fun f => negb (String.eqb (fst f) name)) fs)%list).
Proof. reflexivity. Qed.

Lemma for_each_print (f : string -> string) (xs : list string) a n u m fs :
  forall out,
  for_each xs (fun s => print (f s)) (mkProc a n u m out fs)
  = Returned (tt, mkProc a n u m (out ++ map f xs)%list fs).
Proof.
  induction xs as [|x xs IH]; intro out.
  - simpl. unfold ret. now rewrite app_nil_r.
  - cbn [for_each map]. rewrite print_bind, IH.
    now rewrite <- app_assoc.
Qed.

(** What an exporting [main] leaves behind once [generate_seeds] has returned
    [seeds]. *)
Lemma main_export_of_seeds fuel h count p seeds p1 :
  generate_seeds fuel h count p = Returned (seeds, p1) ->
  main fuel h count true p
  = Returned (tt, with_output p1
                    (stdout p1 ++ banner ++ map (table_row h) seeds
                       ++ tally (List.length seeds) :: export_notes h)%list
                    (("alias-seeds.txt", (String.concat nl seeds ++ nl)%string)
                       :: filter (fun f => negb (String.eqb (fst f) "alias-seeds.txt"))
                            (files p1))%list).
Proof.
  intro Hgen. unfold main. rewrite (bind_returned _ _ _ _ _ Hgen).
  destruct p1 as [a n u m out fs].
  unfold with_output. cbn [adjectives nouns urandom_reads mt_calls stdout files].
  rewrite !print_bind.
  rewrite (bind_returned _ _ _ _ _ (for_each_print (table_row h) seeds a n u m fs _)).
  rewrite print_bind, write_text_bind, print_bind, print_last.
  unfold banner, export_notes, tally.
  do 3 f_equal.
  rewrite <- !app_assoc. reflexivity.
Qed.

(** *** Reading the file back *)

Lemma seed_form_free_of s c :
  seed_form s -> Ascii.eqb dash c = false ->
  (forall w, In w ADJECTIVES -> count_char c w = 0) ->
  (forall w, In w NOUNS -> count_char c w = 0) ->
  count_char c s = 0.
Proof.
  intros [adj [noun [Ha [Hn ->]]]] Hc Hfa Hfn.
  now rewrite count_joined, Hc, (Hfa _ Ha), (Hfn _ Hn).
Qed.

Lemma seed_no_newline s : seed_form s -> count_char newline s = 0.
Proof.
  intro H. apply seed_form_free_of; auto using
    ADJECTIVES_no_newline, NOUNS_no_newline.
Qed.

Lemma seed_no_space s : seed_form s -> count_char space s = 0.
Proof.
  intro H. apply seed_form_free_of; auto using
    ADJECTIVES_no_space, NOUNS_no_space.
Qed.

Lemma seed_not_empty s : seed_form s -> s <> "".
Proof.
  intros [adj [noun [_ [_ ->]]]] H.
  apply (f_equal (count_char dash)) in H.
  rewrite count_joined in H. simpl in H. lia.
Qed.

Lemma split_on_nonempty c s : split_on c s <> []%list.
Proof.
  destruct s as [|x s]; simpl; [discriminate|].
  destruct (Ascii.eqb x c); [discriminate|].
  destruct (split_on c s); discriminate.
Qed.

Lemma split_on_terminated c a :
  split_on c (a ++ String c "") = (split_on c a ++ [""])%list.
Proof.
  induction a as [|x a IH]; simpl.
  - now rewrite Ascii.eqb_refl.
  - rewrite IH. destruct (Ascii.eqb x c); [reflexivity|].
    destruct (split_on c a) eqn:Hsplit; [|reflexivity].
    now apply split_on_nonempty in Hsplit.
Qed.

Lemma split_on_concat (l : list string) :
  l <> []%list ->
  (forall s, In s l -> count_char newline s = 0) ->
  split_on newline (String.concat nl l) = l.
Proof.
  induction l as [|x l IH]; intros Hne Hfree; [congruence|].
  destruct l as [|y l].
  - simpl. apply split_on_free, Hfree. now left.
  - rewrite concat_cons. change (nl ++ ?t) with (String newline t).
    rewrite split_on_app by (apply Hfree; now left).
    f_equal. apply IH; [discriminate|].
    intros s Hs. apply Hfree. now right.
Qed.

(** A file of newline-terminated lines reads back as those lines. *)
Lemma file_lines_written (l : list string) :
  l <> []%list ->
  (forall s, In s l -> count_char newline s = 0) ->
  file_lines (String.concat nl l ++ nl) = Some l.
Proof.
  intros Hne Hfree. unfold file_lines, nl.
  rewrite split_on_terminated. fold nl.
  rewrite split_on_concat by assumption.
  rewrite rev_unit, rev_involutive. reflexivity.
Qed.

(** *** Reading the console back *)

Lemma printed_seeds_app a b :
  printed_seeds (a ++ b) = (printed_seeds a ++ printed_seeds b)%list.
Proof.
  induction a as [|e a IH]; simpl; [reflexivity|].
  destruct (console_seed e); simpl; now rewrite IH.
Qed.

Lemma take_until_padded s k rest :
  count_char space s = 0 ->
  take_until space ((s ++ repeat_str " " k) ++ " " ++ rest) = s.
Proof.
  intro Hfree. rewrite append_assoc.
  destruct k as [|k]; cbn [repeat_str append]; now apply take_until_app.
Qed.

Lemma first_column_indent r :
  first_column ("  " ++ r) = Some (take_until space r).
Proof. reflexivity. Qed.

Lemma first_column_row s rest :
  count_char space s = 0 ->
  first_column ("  " ++ ljust 28 s ++ " " ++ rest) = Some s.
Proof.
  intro Hfree. rewrite first_column_indent. unfold ljust.
  now rewrite take_until_padded.
Qed.

Lemma console_seed_row h s : seed_form s -> console_seed (table_row h s) = Some s.
Proof.
  intro Hs. unfold console_seed, table_row.
  rewrite first_column_row by now apply seed_no_space.
  apply is_seed_form in Hs. now rewrite Hs.
Qed.

Lemma printed_seeds_rows h l :
  Forall seed_form l -> printed_seeds (map (table_row h) l) = l.
Proof.
  induction 1 as [|s l Hs _ IH]; simpl; [reflexivity|].
  now rewrite (console_seed_row h s Hs), IH.
Qed.

Lemma printed_seeds_banner : printed_seeds banner = []%list.
Proof. vm_compute. reflexivity. Qed.

Lemma printed_seeds_trailer h n :
  printed_seeds (tally n :: export_notes h) = []%list.
Proof. reflexivity. Qed.

(** What an export leaves on disk and on the console, given the seeds. *)
Lemma export_reads_back h p p1 l :
  stdout p1 = stdout p ->
  Forall seed_form l -> l <> []%list ->
  let p' := with_output p1
              (stdout p1 ++ banner ++ map (table_row h) l
                 ++ tally (List.length l) :: export_notes h)%list
              (("alias-seeds.txt", (String.concat nl l ++ nl)%string)
                 :: filter (fun f => negb (String.eqb (fst f) "alias-seeds.txt"))
                      (files p1))%list in
  read_text "alias-seeds.txt" p' = Some (String.concat nl l ++ nl) /\
  file_lines (String.concat nl l ++ nl) = Some l /\
  Forall (fun s => s <> "" /\ is_seed s = true) l /\
  printed_seeds (printed_since p p') = l.
Proof.
  intros Hout Hform Hne p'. split; [|split; [|split]].
  - unfold read_text, p', with_output. cbn [files find fst].
    rewrite String.eqb_refl. reflexivity.
  - apply file_lines_written; [assumption|].
    intros s Hs. apply seed_no_newline. rewrite Forall_forall in Hform. auto.
  - eapply Forall_impl; [|exact Hform].
    intros s Hs. split; [now apply seed_not_empty | now apply is_seed_form].
  - unfold printed_since, p', with_output. cbn [stdout]. rewrite Hout.
    rewrite skipn_app, skipn_all, Nat.sub_diag. cbn [skipn app].
    rewrite !printed_seeds_app, printed_seeds_banner, printed_seeds_trailer.
    rewrite (printed_seeds_rows h l Hform). cbn [app]. apply app_nil_r.
Qed.

(** C8: an export with count 5 writes alias-seeds.txt as exactly five
    non-empty newline-terminated lines, each an [<adjective>-<noun>] seed,
    with nothing before or after them, and those lines are the seeds the run
    printed in the SEED column of the console table.  Every run that ends
    leaves this behind, and a run does end when the random source is fair. *)
Theorem export_round_trip h p :
  pools_bound p ->
  (forall fuel p',
      main fuel h 5 true p = Returned (tt, p') ->
      exists text lines,
        read_text "alias-seeds.txt" p' = Some text /\
        text = String.concat nl lines ++ nl /\
        file_lines text = Some lines /\
        List.length lines = 5 /\
        NoDup lines /\
        Forall (fun s => s <> "" /\ is_seed s = true) lines /\
        printed_seeds (printed_since p p') = lines /\
        (forall s, In s lines <-> In s (printed_seeds (printed_since p p')))) /\
  (fair_source h (urandom_reads p) ->
   exists p', returns (fun fuel => main fuel h 5 true p) (tt, p')).
Proof.
  intro Hp. split.
  - intros fuel p' Hmain.
    assert (Hgen : exists l p1, generate_seeds fuel h 5 p = Returned (l, p1)).
    { unfold main in Hmain. apply bind_inv in Hmain.
      destruct Hmain as [l [p1 [Hgen _]]]. now exists l, p1. }
    destruct Hgen as [l [p1 Hgen]].
    rewrite (main_export_of_seeds _ _ _ _ _ _ Hgen) in Hmain.
    injection Hmain as Hp'. subst p'.
    destruct (generate_seeds_returned _ _ _ _ _ _ Hp Hgen)
      as [seeds [k [_ [[Hnd Hincl] [Hlen [Hl Hp1]]]]]].
    pose proof (keyed_order_perm h (mt_calls p) seeds) as Hperm.
    rewrite <- Hl in Hperm.
    assert (Hform : Forall seed_form l).
    { apply Forall_forall. intros s Hs. apply seed_space_form, Hincl.
      apply (Permutation_in _ Hperm Hs). }
    assert (Hfive : List.length l = 5).
    { rewrite (Permutation_length Hperm). lia. }
    assert (Hne : l <> []%list)
      by (intro Hnil; rewrite Hnil in Hfive; discriminate Hfive).
    assert (Hout : stdout p1 = stdout p) by now rewrite Hp1.
    destruct (export_reads_back h p p1 l Hout Hform Hne)
      as [Hread [Hlines [Hseeds Hprinted]]].
    exists (String.concat nl l ++ nl), l.
    split; [exact Hread|]. split; [reflexivity|]. split; [exact Hlines|].
    split; [exact Hfive|].
    split; [apply (Permutation_NoDup (Permutation_sym Hperm) Hnd)|].
    split; [exact Hseeds|]. split; [exact Hprinted|].
    intro s.
    match goal with
    | |- _ <-> In s ?t => replace t with l by (symmetry; exact Hprinted)
    end.
    tauto.
  - intro Hfair.
    destruct (generate_seeds_fair h p 5 Hp Hfair) as [l [k [[fuel Hret] _]]].
    { rewrite ADJECTIVES_length, NOUNS_length. vm_compute. split; discriminate. }
    eexists. exists fuel. intros fuel' Hle.
    apply main_export_of_seeds. now apply Hret.
Qed.

Lemma export_round_trip_witness :
  (forall fuel p',
      main fuel (plain_host enumerating) 5 true module_loaded = Returned (tt, p') ->
      exists text lines,
        read_text "alias-seeds.txt" p' = Some text /\
        text = String.concat nl lines ++ nl /\
        file_lines text = Some lines /\
        List.length lines = 5 /\
        NoDup lines /\
        Forall (fun s => s <> "" /\ is_seed s = true) lines /\
        printed_seeds (printed_since module_loaded p') = lines /\
        (forall s, In s lines
                   <-> In s (printed_seeds (printed_since module_loaded p')))) /\
  (exists p',
     returns (fun fuel => main fuel (plain_host enumerating) 5 true module_loaded)
             (tt, p')).
Proof.
  destruct (export_round_trip (plain_host enumerating) module_loaded
              module_loaded_bound) as [Hany Hfair].
  split; [exact Hany | exact (Hfair enumerating_fair)].
Defined.

(** * Further properties of the code *)

(** ** generate_seed on any pools *)


(** ** Printing and files *)

Lemma keeps_output_ret {A} (a : A) : keeps_output (ret a).
Proof. intros p a' p' H. inversion H. auto. Qed.

Lemma keeps_output_bind {A B} (m : M A) (k : A -> M B) :
  keeps_output m -> (forall a, keeps_output (k a)) -> keeps_output (bind m k).
Proof.
  intros Hm Hk p b p'' Hrun. apply bind_inv in Hrun.
  destruct Hrun as [a [p' [H1 H2]]].
  apply Hm in H1. apply Hk in H2. destruct H1, H2. split; congruence.
Qed.

Lemma keeps_output_spin {A} : keeps_output (@spin A).
Proof. intros p a p' H. discriminate. Qed.

Lemma keeps_output_load_global {A} (f : Proc -> A) : keeps_output (load_global f).
Proof. intros p a p' H. inversion H. auto. Qed.

Lemma keeps_output_choice h rng seq : keeps_output (choice h rng seq).
Proof.
  intros p a p' H. unfold choice in H.
  destruct seq; [discriminate|]. inversion H. auto.
Qed.

Lemma keeps_output_random_random h : keeps_output (random_random h).
Proof. intros p a p' H. inversion H. auto. Qed.

Create HintDb output.

#[local] Hint Resolve keeps_output_ret keeps_output_spin keeps_output_load_global
  keeps_output_choice keeps_output_random_random : output.

Ltac output_step :=
  repeat (first [ solve [auto with output] | apply keeps_output_bind; [|intro] ]).

Lemma keeps_output_generate_seed h rng : keeps_output (generate_seed h rng).
Proof. unfold generate_seed. destruct rng; output_step. Qed.

#[local] Hint Resolve keeps_output_generate_seed : output.

Lemma keeps_output_while_fewer h rng count fuel :
  forall seeds, keeps_output (while_fewer fuel h rng count seeds).
Proof.
  induction fuel as [|fuel IH]; intro seeds; cbn [while_fewer];
    destruct (Z.of_nat (List.length seeds) <? count)%Z; output_step.
Qed.

Lemma keeps_output_decorate h xs : keeps_output (decorate h xs).
Proof. induction xs as [|x xs IH]; cbn [decorate]; output_step. Qed.

#[local] Hint Resolve keeps_output_while_fewer keeps_output_decorate : output.

Lemma keeps_output_generate_seeds fuel h count :
  keeps_output (generate_seeds fuel h count).
Proof.
  unfold generate_seeds, order_and_truncate, sorted_random_key. output_step.
Qed.

(** ** Requests for nothing, and pools that are empty *)

Lemma generate_seeds_nothing_asked fuel h count p :
  (count <= 0)%Z -> generate_seeds fuel h count p = Returned ([]%list, p).
Proof.
  intro Hle.
  rewrite (generate_seeds_of_loop fuel h count p []%list p).
  - now rewrite keyed_order_nil, slice_to_nil, after_keys_zero.
  - apply while_fewer_exit. simpl. lia.
Qed.

(** X2: [generate_seeds(0)] returns the empty list without drawing: whatever
    the pools hold (even nothing) and whatever the random sources would
    answer, the process is left exactly as it was. *)
Theorem generate_seeds_zero fuel h p :
  generate_seeds fuel h 0 p = Returned ([]%list, p).
Proof. apply generate_seeds_nothing_asked. lia. Qed.

Lemma main_of_raised fuel h count export p e :
  generate_seeds fuel h count p = Raised e ->
  main fuel h count export p = Raised e.
Proof. intro H. unfold main, bind. now rewrite H. Qed.

Lemma main_of_running fuel h count export p :
  generate_seeds fuel h count p = Running ->
  main fuel h count export p = Running.
Proof. intro H. unfold main, bind. now rewrite H. Qed.

Lemma generate_seeds_pool_empty fuel h count p :
  adjectives p = []%list \/ nouns p = []%list ->
  (0 < count)%Z ->
  generate_seeds (S fuel) h count p
  = Raised (IndexError "Cannot choose from an empty sequence").
Proof.
  intros Hempty Hpos. rewrite generate_seeds_unfold. unfold bind.
  cbn [while_fewer List.length].
  destruct (Z.ltb_spec (Z.of_nat 0) count) as [_|Hge]; [|simpl in Hge; lia].
  unfold bind.
  assert (Hraise : generate_seed h (Some SystemRandom) p
                   = Raised (IndexError "Cannot choose from an empty sequence")).
  { rewrite generate_seed_general.
    destruct Hempty as [-> | ->]; [reflexivity|].
    now destruct (adjectives p). }
  now rewrite Hraise.
Qed.

(** X3: with an empty adjective or noun pool, a request for at least one seed
    raises the [IndexError] of [choice] as soon as the loop body runs, out of
    [generate_seeds] and out of [main] alike; nothing is caught. *)
Theorem empty_pool_raises fuel h count export p :
  adjectives p = []%list \/ nouns p = []%list ->
  (0 < count)%Z ->
  generate_seeds (S fuel) h count p
  = Raised (IndexError "Cannot choose from an empty sequence") /\
  main (S fuel) h count export p
  = Raised (IndexError "Cannot choose from an empty sequence").
Proof.
  intros Hempty Hpos.
  pose proof (generate_seeds_pool_empty fuel h count p Hempty Hpos) as Hgen.
  split; [exact Hgen | now apply main_of_raised].
Qed.

Lemma empty_pool_raises_witness :
  generate_seeds 1 (plain_host enumerating) 10 (mkProc ADJECTIVES []%list 0 0 []%list []%list)
  = Raised (IndexError "Cannot choose from an empty sequence") /\
  main 1 (plain_host enumerating) 10 true (mkProc ADJECTIVES []%list 0 0 []%list []%list)
  = Raised (IndexError "Cannot choose from an empty sequence").
Proof.
  apply (empty_pool_raises 0 (plain_host enumerating) 10 true
           (mkProc ADJECTIVES []%list 0 0 []%list []%list)).
  - right. reflexivity.
  - reflexivity.
Defined.

(** ** main *)


Lemma main_returned_seeds fuel h count export p p' :
  main fuel h count export p = Returned (tt, p') ->
  exists seeds p1, generate_seeds fuel h count p = Returned (seeds, p1).
Proof.
  intro Hmain. unfold main in Hmain. apply bind_inv in Hmain.
  destruct Hmain as [l [p1 [Hgen _]]]. now exists l, p1.
Qed.

(** X4: with a count above the 8988 seeds the pools form, [main] never gets
    past [generate_seeds]: with or without export it neither finishes nor
    fails, whatever the random source answers. *)
Theorem main_oversized_hangs h count export p :
  pools_bound p ->
  (Z.of_nat (List.length ADJECTIVES * List.length NOUNS) < count)%Z ->
  hangs (fun fuel => main fuel h count export p).
Proof.
  intros Hp Hbig fuel. apply main_of_running.
  now apply generate_seeds_never_leaves.
Qed.

Lemma main_oversized_hangs_witness :
  pools_bound module_loaded /\
  hangs (fun fuel => main fuel (plain_host descending) 9000 false module_loaded).
Proof.
  split; [exact module_loaded_bound|].
  apply (main_oversized_hangs (plain_host descending) 9000 false module_loaded).
  - exact module_loaded_bound.
  - rewrite ADJECTIVES_length, NOUNS_length. vm_compute. reflexivity.
Defined.

Lemma returned_same {A} (a b : A) (p q : Proc) :
  Returned (a, p) = Returned (b, q) -> a = b /\ p = q.
Proof. intro H. now inversion H. Qed.

Lemma skipn_exact {A} (l l' : list A) : skipn (List.length l) (l ++ l') = l'.
Proof. induction l as [|x l IH]; simpl; [reflexivity | exact IH]. Qed.

Lemma printed_since_with_output p p1 out fs :
  stdout p1 = stdout p ->
  printed_since p (with_output p1 (stdout p1 ++ out)%list fs) = out.
Proof.
  intro Hout. unfold printed_since, with_output. cbn [stdout].
  rewrite Hout. apply skipn_exact.
Qed.

(** X5: an export of an empty batch (count 0 or negative) still runs to the
    end: the console shows the banner and a tally of 0 but no row, and
    alias-seeds.txt is written holding a single newline, which reads back as
    one empty line, not as no line.  No random source is read. *)
Theorem main_export_empty_batch fuel h count p :
  (count <= 0)%Z ->
  exists p',
    main fuel h count true p = Returned (tt, p') /\
    printed_since p p' = (banner ++ tally 0 :: export_notes h)%list /\
    read_text "alias-seeds.txt" p' = Some nl /\
    file_lines nl = Some [""]%list /\
    urandom_reads p' = urandom_reads p /\ mt_calls p' = mt_calls p.
Proof.
  intro Hle.
  pose proof (main_export_of_seeds fuel h count p []%list p
                (generate_seeds_nothing_asked fuel h count p Hle)) as Hmain.
  eexists. split; [exact Hmain|].
  split; [now apply printed_since_with_output|].
  split; [|split; [reflexivity | split; reflexivity]].
  unfold read_text, with_output. cbn [files find fst].
  now rewrite String.eqb_refl.
Qed.

Lemma main_export_empty_batch_witness :
  exists p',
    main 0 (plain_host enumerating) 0 true module_loaded = Returned (tt, p') /\
    printed_since module_loaded p'
    = (banner ++ tally 0 :: export_notes (plain_host enumerating))%list /\
    read_text "alias-seeds.txt" p' = Some nl /\
    file_lines nl = Some [""]%list /\
    urandom_reads p' = 0 /\ mt_calls p' = 0.
Proof.
  apply (main_export_empty_batch 0 (plain_host enumerating) 0 module_loaded).
  discriminate.
Defined.



Lemma find_among_others (name other : string) (fs : list (string * string)) :
  name <> other ->
  find (fun f => String.eqb (fst f) name)
       (filter (fun f => negb (String.eqb (fst f) other)) fs)
  = find (fun f => String.eqb (fst f) name) fs.
Proof.
  intro Hne. induction fs as [|[n t] fs IH]; [reflexivity|].
  cbn [filter find fst].
  destruct (String.eqb n other) eqn:Hother; cbn [negb].
  - apply String.eqb_eq in Hother. subst n.
    destruct (String.eqb other name) eqn:Hname; [|exact IH].
    apply String.eqb_eq in Hname. congruence.
  - cbn [find fst]. destruct (String.eqb n name); [reflexivity | exact IH].
Qed.

Lemma filter_none_left (other : string) (fs : list (string * string)) :
  filter (fun f => String.eqb (fst f) other)
         (filter (fun f => negb (String.eqb (fst f) other)) fs) = []%list.
Proof.
  induction fs as [|[n t] fs IH]; [reflexivity|].
  cbn [filter fst]. destruct (String.eqb n other) eqn:Hother; cbn [negb filter fst].
  - exact IH.
  - now rewrite Hother.
Qed.

(** X7: an export creates or replaces alias-seeds.txt and nothing else: every
    other file reads as before, the new text is the returned seeds each
    followed by a newline (a lone newline for an empty batch), and the file
    exists once, whatever was there under that name. *)
Theorem export_replaces_one_file fuel h count p p' :
  main fuel h count true p = Returned (tt, p') ->
  (forall name, name <> "alias-seeds.txt" -> read_text name p' = read_text name p) /\
  (exists seeds p1,
      generate_seeds fuel h count p = Returned (seeds, p1) /\
      read_text "alias-seeds.txt" p' = Some (String.concat nl seeds ++ nl)) /\
  List.length (filter (fun f => String.eqb (fst f) "alias-seeds.txt") (files p')) = 1.
Proof.
  intro Hmain.
  destruct (main_returned_seeds _ _ _ _ _ _ Hmain) as [l [p1 Hgen]].
  rewrite (main_export_of_seeds _ _ _ _ _ _ Hgen) in Hmain.
  apply returned_same in Hmain. destruct Hmain as [_ Hp']. subst p'.
  destruct (keeps_output_generate_seeds _ _ _ _ _ _ Hgen) as [_ Hfiles].
  unfold read_text, with_output. cbn [files]. rewrite Hfiles.
  split; [|split].
  - intros name Hne. cbn [find fst].
    destruct (String.eqb "alias-seeds.txt" name) eqn:Heq.
    + apply String.eqb_eq in Heq. congruence.
    + now rewrite find_among_others.
  - exists l, p1. split; [exact Hgen|].
    cbn [find fst]. now rewrite String.eqb_refl.
  - cbn [filter fst]. rewrite String.eqb_refl. cbn [List.length].
    now rewrite filter_none_left.
Qed.

Lemma export_replaces_one_file_witness :
  exists p',
    main 2 (plain_host enumerating) 2 true
         (mkProc ADJECTIVES NOUNS 0 0 []%list disk_before) = Returned (tt, p') /\
    read_text "notes.txt" p' = Some "keep" /\
    read_text "alias-seeds.txt" p' = Some ("amber-anvil" ++ nl ++ "amber-arch" ++ nl) /\
    (forall name, name <> "alias-seeds.txt" ->
       read_text name p'
       = read_text name (mkProc ADJECTIVES NOUNS 0 0 []%list disk_before)) /\
    List.length (filter (fun f => String.eqb (fst f) "alias-seeds.txt") (files p')) = 1.
Proof.
  destruct (main 2 (plain_host enumerating) 2 true
              (mkProc ADJECTIVES NOUNS 0 0 []%list disk_before))
    as [[[] p']| |] eqn:Hrun; [| vm_compute in Hrun; discriminate ..].
  exists p'. split; [reflexivity|].
  destruct (export_replaces_one_file 2 (plain_host enumerating) 2
              (mkProc ADJECTIVES NOUNS 0 0 []%list disk_before) p' Hrun)
    as [Hothers [_ Honce]].
  vm_compute in Hrun. injection Hrun as Hp'. subst p'.
  repeat split; try reflexivity; assumption.
Defined.

(** ** The batch and the draws *)

Lemma drawn_S h q k :
  drawn h q (S k) = (drawn h q k ++ [seed_at h (q + 2 * k)])%list.
Proof. unfold drawn. now rewrite seq_S, map_app. Qed.

Lemma drawn_length h q k : List.length (drawn h q k) = k.
Proof. unfold drawn. now rewrite length_map, length_seq. Qed.

Lemma collect_snoc draws s seeds :
  collect (draws ++ [s]) seeds = set_add s (collect draws seeds).
Proof. unfold collect. now rewrite fold_left_app. Qed.

Lemma set_add_In x s seeds : In x (set_add s seeds) <-> In x seeds \/ x = s.
Proof.
  unfold set_add. destruct (set_mem s seeds) eqn:Hmem.
  - apply set_mem_In in Hmem. split; [auto | intros [H| ->]; assumption].
  - rewrite in_app_iff. simpl. intuition congruence.
Qed.

Lemma set_add_NoDup s seeds : NoDup seeds -> NoDup (set_add s seeds).
Proof.
  intro Hnd. unfold set_add. destruct (set_mem s seeds) eqn:Hmem; [assumption|].
  apply set_mem_not_In in Hmem.
  apply NoDup_app; [assumption | repeat constructor; intros [] |].
  intros x Hx [<-|[]]. contradiction.
Qed.

Lemma collect_In x draws : forall seeds,
  In x (collect draws seeds) <-> In x seeds \/ In x draws.
Proof.
  induction draws as [|s draws IH]; intro seeds; cbn [collect fold_left].
  - simpl. tauto.
  - fold (collect draws (set_add s seeds)). rewrite IH, set_add_In. simpl.
    intuition congruence.
Qed.

Lemma collect_NoDup draws : forall seeds,
  NoDup seeds -> NoDup (collect draws seeds).
Proof.
  induction draws as [|s draws IH]; intros seeds Hnd; cbn [collect fold_left];
    [assumption|].
  apply IH. now apply set_add_NoDup.
Qed.

Lemma collect_length draws : forall seeds,
  List.length (collect draws seeds) <= List.length seeds + List.length draws.
Proof.
  induction draws as [|s draws IH]; intro seeds; cbn [collect fold_left List.length];
    [lia|].
  fold (collect draws (set_add s seeds)).
  pose proof (IH (set_add s seeds)). pose proof (set_add_length s seeds). lia.
Qed.

(** The loop leaves with the set its draws built, and its last draw, if it
    made one, was of a seed not drawn before. *)
Lemma while_fewer_drawn h rng count q fuel : forall j p seeds' p',
  pools_bound p ->
  urandom_reads p = q + 2 * j ->
  while_fewer fuel h rng count (collect (drawn h q j) []%list) p
  = Returned (seeds', p') ->
  exists k,
    j <= k /\
    seeds' = collect (drawn h q k) []%list /\
    p' = after_reads (2 * (k - j)) p /\
    (count <= Z.of_nat (List.length seeds'))%Z /\
    (k = j \/ ~ In (seed_at h (q + 2 * (k - 1))) (drawn h q (k - 1))).
Proof.
  induction fuel as [|fuel IH]; intros j p seeds' p' Hp Hq Hrun;
    destruct (Z.lt_ge_cases (Z.of_nat (List.length (collect (drawn h q j) []%list)))
                count) as [Hlt|Hge].
  - rewrite while_fewer_starved in Hrun by assumption. discriminate.
  - rewrite while_fewer_exit in Hrun by assumption.
    apply returned_same in Hrun. destruct Hrun as [<- <-].
    exists j. rewrite Nat.sub_diag, after_reads_zero.
    repeat split; auto.
  - rewrite while_fewer_step in Hrun by assumption.
    rewrite Hq, <- collect_snoc, <- drawn_S in Hrun.
    apply IH in Hrun.
    + destruct Hrun as [k [Hk [Hs [Hp' [Hfull Hlast]]]]].
      exists k. split; [lia|]. split; [assumption|]. split.
      * rewrite Hp', after_reads_add. f_equal. lia.
      * split; [assumption|]. right.
        destruct Hlast as [-> | Hnew]; [|assumption].
        replace (S j - 1) with j by lia.
        intro Hold. subst seeds'.
        rewrite drawn_S, collect_snoc, set_add_old in Hfull; [lia|].
        apply collect_In. now right.
    + now apply after_reads_bound.
    + rewrite after_reads_reads. lia.
  - rewrite while_fewer_exit in Hrun by assumption.
    apply returned_same in Hrun. destruct Hrun as [<- <-].
    exists j. rewrite Nat.sub_diag, after_reads_zero.
    repeat split; auto.
Qed.

(** What a returning [generate_seeds] has drawn. *)
Lemma generate_seeds_drawn fuel h count p l p' :
  pools_bound p ->
  generate_seeds fuel h count p = Returned (l, p') ->
  exists k,
    l = keyed_order h (mt_calls p) (collect (drawn h (urandom_reads p) k) []%list) /\
    p' = after_keys (List.length l) (after_reads (2 * k) p) /\
    Z.of_nat (List.length l) = Z.max 0 count /\
    (k = 0 \/ ~ In (seed_at h (urandom_reads p + 2 * (k - 1)))
                   (drawn h (urandom_reads p) (k - 1))).
Proof.
  intros Hp Hrun.
  destruct (generate_seeds_returned _ _ _ _ _ _ Hp Hrun)
    as [seeds [k0 [Hloop [_ [Hlen [Hl Hp']]]]]].
  destruct (while_fewer_drawn h SystemRandom count (urandom_reads p) fuel 0 p
              seeds (after_reads (2 * k0) p) Hp) as [k [_ [Hs [Hk [_ Hlast]]]]];
    [lia | exact Hloop |].
  assert (Hkk : k0 = k).
  { apply (f_equal urandom_reads) in Hk. rewrite !after_reads_reads in Hk. lia. }
  subst k0. exists k.
  pose proof (keyed_order_perm h (mt_calls p) seeds) as Hperm.
  rewrite <- Hl in Hperm.
  rewrite (Permutation_length Hperm). subst seeds. auto.
Qed.

(** X8: a non-empty batch is exactly what the draws produced: if
    [generate_seeds] returns after [k] draws, the returned seeds are, as a
    set, the seeds of those [k] draws (each kept once), the [k]-th draw was
    of a seed not drawn before (the loop stops with the draw that completes
    the batch), and [k] is at least [count]. *)
Theorem batch_is_the_distinct_draws fuel h count p l p' :
  pools_bound p ->
  (0 < count)%Z ->
  generate_seeds fuel h count p = Returned (l, p') ->
  exists k,
    (count <= Z.of_nat k)%Z /\
    urandom_reads p' = 2 * k + urandom_reads p /\
    Permutation l (collect (drawn h (urandom_reads p) k) []%list) /\
    (forall s, In s l <-> In s (drawn h (urandom_reads p) k)) /\
    ~ In (seed_at h (urandom_reads p + 2 * (k - 1)))
         (drawn h (urandom_reads p) (k - 1)).
Proof.
  intros Hp Hpos Hrun.
  destruct (generate_seeds_drawn _ _ _ _ _ _ Hp Hrun) as [k [Hl [Hp' [Hlen Hlast]]]].
  pose proof (keyed_order_perm h (mt_calls p)
                (collect (drawn h (urandom_reads p) k) []%list)) as Hperm.
  rewrite <- Hl in Hperm.
  pose proof (collect_length (drawn h (urandom_reads p) k) []%list) as Hbound.
  rewrite drawn_length, <- (Permutation_length Hperm) in Hbound. simpl in Hbound.
  exists k. split; [lia|]. split; [now rewrite Hp'|]. split; [exact Hperm|].
  split.
  - intro s. split; intro Hs.
    + apply (Permutation_in _ Hperm) in Hs. apply collect_In in Hs.
      destruct Hs as [[]|Hs]. exact Hs.
    + apply (Permutation_in _ (Permutation_sym Hperm)). apply collect_In. now right.
  - destruct Hlast as [-> | Hnew]; [|exact Hnew].
    simpl in Hbound. lia.
Qed.

Lemma batch_is_the_distinct_draws_witness :
  generate_seeds 5 (plain_host (fixed_pair 3 4)) 1 module_loaded
  = Returned (["birch-bridge"]%list, after_keys 1 (after_reads 2 module_loaded)) /\
  exists k,
    (1 <= Z.of_nat k)%Z /\
    urandom_reads (after_keys 1 (after_reads 2 module_loaded)) = 2 * k + 0 /\
    Permutation ["birch-bridge"]%list
                (collect (drawn (plain_host (fixed_pair 3 4)) 0 k) []%list) /\
    (forall s, In s ["birch-bridge"]%list
               <-> In s (drawn (plain_host (fixed_pair 3 4)) 0 k)) /\
    ~ In (seed_at (plain_host (fixed_pair 3 4)) (0 + 2 * (k - 1)))
         (drawn (plain_host (fixed_pair 3 4)) 0 (k - 1)).
Proof.
  split; [vm_compute; reflexivity|].
  apply (batch_is_the_distinct_draws 5 (plain_host (fixed_pair 3 4)) 1 module_loaded
           ["birch-bridge"]%list (after_keys 1 (after_reads 2 module_loaded))).
  - exact module_loaded_bound.
  - reflexivity.
  - vm_compute. reflexivity.
Defined.



(** X10: a request for all the seeds the pools form (84 * 107 of them), when
    it returns, returns every possible seed exactly once. *)
Theorem whole_space_batch fuel h p l p' :
  pools_bound p ->
  generate_seeds fuel h (Z.of_nat (List.length ADJECTIVES * List.length NOUNS)) p
  = Returned (l, p') ->
  Permutation l seed_space /\ (forall s, seed_form s -> In s l).
Proof.
  intros Hp Hrun.
  destruct (generate_seeds_returned _ _ _ _ _ _ Hp Hrun)
    as [seeds [k [_ [[Hnd Hincl] [Hlen [Hl _]]]]]].
  pose proof (keyed_order_perm h (mt_calls p) seeds) as Hperm.
  rewrite <- Hl in Hperm.
  assert (Hall : Permutation seeds seed_space).
  { apply NoDup_Permutation_bis; [assumption | | assumption].
    rewrite seed_space_length. lia. }
  assert (Hfull : Permutation l seed_space) by (eapply perm_trans; eassumption).
  split; [exact Hfull|].
  intros s Hs. apply (Permutation_in _ (Permutation_sym Hfull)).
  now apply seed_space_form.
Qed.

Lemma whole_space_batch_witness :
  exists l p',
    returns (fun fuel =>
               generate_seeds fuel (plain_host enumerating)
                 (Z.of_nat (List.length ADJECTIVES * List.length NOUNS)) module_loaded)
            (l, p') /\
    Permutation l seed_space /\ (forall s, seed_form s -> In s l).
Proof.
  destruct (generate_seeds_fair (plain_host enumerating) module_loaded
              (Z.of_nat (List.length ADJECTIVES * List.length NOUNS))
              module_loaded_bound enumerating_fair)
    as [l [k [[fuel Hret] _]]]; [lia|].
  exists l, (after_keys (List.length l) (after_reads k module_loaded)).
  split; [now exists fuel|].
  exact (whole_space_batch fuel (plain_host enumerating) module_loaded l _
           module_loaded_bound (Hret fuel (le_n fuel))).
Defined.

(** ** The two random sources, seen from outside *)

(** X11: which seeds a batch holds depends on the entropy source alone: on
    two hosts whose entropy sources answer alike, whatever their floats, set
    iteration orders and hashes, [generate_seeds] returns the same seeds,
    possibly in another order, after the same number of draws. *)
Theorem batch_depends_on_entropy_only fuel h1 h2 count p1 p2 l1 q1 :
  same_entropy h1 h2 ->
  pools_bound p1 -> pools_bound p2 ->
  urandom_reads p1 = urandom_reads p2 ->
  generate_seeds fuel h1 count p1 = Returned (l1, q1) ->
  exists l2 q2,
    generate_seeds fuel h2 count p2 = Returned (l2, q2) /\
    Permutation l1 l2 /\
    urandom_reads q1 = urandom_reads q2.
Proof.
  intros Hsame Hp1 Hp2 Hq Hrun.
  destruct (generate_seeds_returned _ _ _ _ _ _ Hp1 Hrun)
    as [seeds [k [Hloop [_ [_ [Hl Hq1]]]]]].
  assert (Ha : adjectives p1 = adjectives p2)
    by (destruct Hp1 as [-> _], Hp2 as [-> _]; reflexivity).
  assert (Hn : nouns p1 = nouns p2)
    by (destruct Hp1 as [_ ->], Hp2 as [_ ->]; reflexivity).
  pose proof (draws_read_entropy_only h1 h2 SystemRandom count fuel []%list p1 p2
                Hsame Ha Hn Hq) as Hboth.
  rewrite Hloop in Hboth.
  destruct (while_fewer fuel h2 SystemRandom count []%list p2)
    as [[seeds2 p2']| |] eqn:Hloop2; try contradiction.
  destruct Hboth as [<- [Hreads _]].
  pose proof (generate_seeds_of_loop _ _ _ _ _ _ Hloop2) as Hrun2.
  destruct (generate_seeds_returned _ _ _ _ _ _ Hp2 Hrun2)
    as [seeds2 [k2 [Hloop2' [_ [_ [Hl2 Hq2]]]]]].
  rewrite Hloop2 in Hloop2'. apply returned_same in Hloop2'.
  destruct Hloop2' as [<- Hp2'].
  eexists. eexists. split; [exact Hrun2|]. split.
  - rewrite Hl2, Hl.
    eapply perm_trans; [apply keyed_order_perm|].
    apply Permutation_sym, keyed_order_perm.
  - rewrite Hq1. cbn [after_keys urandom_reads]. exact Hreads.
Qed.

Lemma batch_depends_on_entropy_only_witness :
  generate_seeds 3 (plain_host enumerating) 3 module_loaded
  = Returned (["amber-anvil"; "amber-arch"; "amber-basin"]%list,
              after_keys 3 (after_reads 6 module_loaded)) /\
  exists l2 q2,
    generate_seeds 3 (with_floats (plain_host enumerating) (fun n => N.of_nat (9 - n)))
                   3 module_loaded = Returned (l2, q2) /\
    Permutation ["amber-anvil"; "amber-arch"; "amber-basin"]%list l2 /\
    urandom_reads (after_keys 3 (after_reads 6 module_loaded)) = urandom_reads q2.
Proof.
  split; [vm_compute; reflexivity|].
  apply (batch_depends_on_entropy_only 3 (plain_host enumerating)
           (with_floats (plain_host enumerating) (fun n => N.of_nat (9 - n)))
           3 module_loaded module_loaded).
  - intro n. reflexivity.
  - exact module_loaded_bound.
  - exact module_loaded_bound.
  - reflexivity.
  - vm_compute. reflexivity.
Defined.

(** ** Every order can come out *)



Lemma position_in_bound x l : In x l -> position_in x l < List.length l.
Proof.
  induction l as [|y l IH]; intro Hx; [contradiction|].
  cbn [position_in List.length]. destruct (String.eqb x y) eqn:Heq; [lia|].
  apply String.eqb_neq in Heq. destruct Hx as [Hx|Hx]; [congruence|].
  apply IH in Hx. lia.
Qed.







(** ** The look of seeds and rows *)

Lemma seed_space_shape : forallb seed_shape seed_space = true.
Proof. vm_compute. reflexivity. Qed.

(** X13: every seed [generate_seed] returns is 9 to 16 characters long and
    made of lower-case ASCII letters and ['-'] only. *)
Theorem generated_seed_shape h rng p s p' :
  pools_bound p ->
  generate_seed h rng p = Returned (s, p') ->
  9 <= String.length s <= 16 /\
  all_chars (fun c => is_lower c || Ascii.eqb c dash) s = true.
Proof.
  intros Hp Hrun. rewrite (generate_seed_returns h rng p Hp) in Hrun.
  apply returned_same in Hrun. destruct Hrun as [<- _].
  pose proof (proj1 (forallb_forall _ _) seed_space_shape _
                (seed_at_space h (urandom_reads p))) as Hshape.
  unfold seed_shape in Hshape.
  apply andb_true_iff in Hshape. destruct Hshape as [Hlen Hchars].
  apply andb_true_iff in Hlen. destruct Hlen as [Hlo Hhi].
  apply Nat.leb_le in Hlo, Hhi. auto.
Qed.

Lemma generated_seed_shape_witness :
  generate_seed (plain_host (fixed_pair 66 12)) None module_loaded
  = Returned ("starling-circuit", after_reads 2 module_loaded) /\
  9 <= String.length "starling-circuit" <= 16 /\
  all_chars (fun c => is_lower c || Ascii.eqb c dash) "starling-circuit" = true.
Proof.
  split; [reflexivity|].
  apply (generated_seed_shape (plain_host (fixed_pair 66 12)) None module_loaded
           "starling-circuit" (after_reads 2 module_loaded)).
  - exact module_loaded_bound.
  - reflexivity.
Defined.

Lemma length_append (a b : string) :
  String.length (a ++ b) = String.length a + String.length b.
Proof. induction a as [|c a IH]; simpl; [reflexivity | now rewrite IH]. Qed.

Lemma repeat_str_blank_length n : String.length (repeat_str " " n) = n.
Proof. induction n as [|n IH]; simpl; [reflexivity | now rewrite IH]. Qed.

Lemma ljust_length w s : String.length s <= w -> String.length (ljust w s) = w.
Proof.
  intro Hle. unfold ljust. rewrite length_append, repeat_str_blank_length. lia.
Qed.

Lemma short_hashes_shape :
  forallb (fun n => short_hash_shape (format_x (Z.of_nat n))) (seq 0 4095) = true.
Proof. vm_compute. reflexivity. Qed.

Lemma short_hash_of (v : Z) :
  short_hash_shape (format_x (Z.abs v mod 4095)) = true.
Proof.
  pose proof (Z.mod_pos_bound (Z.abs v) 4095 ltac:(lia)) as Hbound.
  rewrite <- (Z2Nat.id (Z.abs v mod 4095)) by lia.
  apply (proj1 (forallb_forall _ _) short_hashes_shape).
  apply in_seq. lia.
Qed.

(** X14: the table never loses its alignment: for every seed of the pools and
    every value of [hash], the short hash has one to three hexadecimal
    digits, the SEED and ALIAS EMAIL EXAMPLE columns fit their widths of 28
    and 48, and so the command starts at column 80 of the row. *)
Theorem table_row_aligned h s :
  seed_form s ->
  exists short left,
    short = format_x (Z.abs (str_hash h s) mod 4095) /\
    1 <= String.length short <= 3 /\
    all_chars is_hex short = true /\
    String.length s <= 28 /\
    String.length (s ++ "-" ++ short ++ "@alias.yourdomain.com") <= 48 /\
    String.length left = 80 /\
    table_row h s = left ++ "pane enroll <url> --context " ++ s.
Proof.
  intro Hs.
  pose proof (proj1 (forallb_forall _ _) seed_space_shape _
                (proj2 (seed_space_form s) Hs)) as Hshape.
  unfold seed_shape in Hshape.
  apply andb_true_iff in Hshape. destruct Hshape as [Hlen _].
  apply andb_true_iff in Hlen. destruct Hlen as [_ Hhi]. apply Nat.leb_le in Hhi.
  pose proof (short_hash_of (str_hash h s)) as Hshort.
  unfold short_hash_shape in Hshort.
  apply andb_true_iff in Hshort. destruct Hshort as [Hl Hhex].
  apply andb_true_iff in Hl. destruct Hl as [Hl1 Hl3].
  apply Nat.leb_le in Hl1, Hl3.
  set (short := format_x (Z.abs (str_hash h s) mod 4095)) in *.
  assert (Halias : String.length (s ++ "-" ++ short ++ "@alias.yourdomain.com") <= 48).
  { rewrite !length_append. cbn [String.length]. lia. }
  exists short,
    ("  " ++ ljust 28 s ++ " "
     ++ ljust 48 (s ++ "-" ++ short ++ "@alias.yourdomain.com") ++ " ").
  split; [reflexivity|]. split; [lia|]. split; [exact Hhex|].
  split; [lia|]. split; [exact Halias|]. split.
  - rewrite !length_append, !ljust_length by lia. reflexivity.
  - unfold table_row. fold short. cbv zeta.
    rewrite !append_assoc. reflexivity.
Qed.

Lemma table_row_aligned_witness :
  exists short left,
    short = format_x (Z.abs (str_hash (plain_host enumerating) "maple-circuit") mod 4095) /\
    1 <= String.length short <= 3 /\
    all_chars is_hex short = true /\
    String.length "maple-circuit" <= 28 /\
    String.length ("maple-circuit" ++ "-" ++ short ++ "@alias.yourdomain.com") <= 48 /\
    String.length left = 80 /\
    table_row (plain_host enumerating) "maple-circuit"
    = left ++ "pane enroll <url> --context " ++ "maple-circuit".
Proof.
  apply (table_row_aligned (plain_host enumerating) "maple-circuit").
  apply is_seed_form. vm_compute. reflexivity.
Defined.
